(** * Request coalescing over manually resumable promises

    A shallow embedding of [CaseStudy/request_coalesce.ts]: the class
    [Continuation] (a promise that is settled from outside) and the class
    [RequestCoalescer] (one in-flight operation, later callers queue up and
    share its outcome).

    JavaScript runs the code on one thread: a call of the async method
    [request] runs without interruption up to its next [await], and is resumed
    in a later turn when the awaited promise settles.  The embedding follows
    that: the body of [request] is written once per segment between two
    [await]s, in a state monad over the heap, and the event loop is a
    transition function over events (a caller invokes [request], the fetch
    settles, the decoding settles).

    The repository holds the two classes twice; the copies differ in type
    parameters and comments only, and the embedding stands for both. *)

From stdpp Require Import base option list gmap strings.

(** ** Strings as the code uses them *)

Module Js.

(** The separator of ["\n"]. *)
Definition LF : Ascii.ascii := Ascii.ascii_of_nat 10.

(** [s.split("\n")]: never empty, the empty string splits into the
    one-element array holding the empty string. *)
Fixpoint split (s : string) : list string :=
  match s with
  | EmptyString => [EmptyString]
  | String c s' =>
      if Ascii.eqb c LF then EmptyString :: split s'
      else match split s' with
           | l :: ls => String c l :: ls
           | [] => [String c EmptyString]
           end
  end.

(** An element of an array being joined: [undefined] prints as the empty
    string. *)
Definition str (o : option string) : string := default EmptyString o.

(** [a.join("\n")]. *)
Fixpoint join (a : list (option string)) : string :=
  match a with
  | [] => EmptyString
  | [x] => str x
  | x :: rest => str x +:+ String LF (join rest)
  end.

(** [a.slice(2)]. *)
Definition slice2 {A} (a : list A) : list A := drop 2 a.

(** A text of several lines. *)
Definition lines (l : list string) : string := join (Some <$> l).

End Js.

(** ** Objects that can be thrown *)

(** A heap object as far as the code looks at it: whether it is an instance
    of [Error], its [message] and its [stack] property ([undefined] is
    [None]).  Objects are ordinary, extensible ones: assigning [stack]
    succeeds. *)
Record object := Object {
  instanceof_Error : bool;
  message : string;
  stack : option string
}.

(** A value given to [reject] or thrown: a primitive, or a reference to a
    heap object (an [Error] or a plain object).  Two references to one
    location are the same object. *)
Inductive reason :=
| Primitive (s : string)
| Ref (l : positive).

Global Instance reason_eq_dec : EqDecision reason.
Proof. solve_decision. Defined.

(** [error instanceof Error]. *)
Definition is_Error (h : gmap positive object) (error : reason) : bool :=
  match error with
  | Primitive _ => false
  | Ref l => match h !! l with
             | Some o => instanceof_Error o
             | None => false
             end
  end.

(** [[error.stack?.split("\n")[0], this.initialCallStack].join("\n")] *)
Definition rewritten_stack (old : option string) (initialCallStack : option string)
  : string :=
  Js.join [old ≫= (λ s, Js.split s !! 0); initialCallStack].

(** [Error().stack?.split("\n").slice(2).join("\n")], where [here] is the
    value of [Error().stack] inside the constructor. *)
Definition captured_stack (here : option string) : option string :=
  (λ s, Js.join (Some <$> Js.slice2 (Js.split s))) <$> here.

(** ** The heap and the monad of one synchronous segment *)

Section Coalescer.

(** The payload type [T] of [RequestCoalescer<T>]. *)
Context {T : Type}.

(** What [resumeByReturning] may be given: [TReturn | PromiseLike<TReturn>]. *)
Inductive resolution :=
| Value (v : T)
| Thenable (p : nat).

(** How a promise ends. *)
Inductive settlement :=
| Fulfilled (v : T)
| Rejected (e : reason).

(** The state of a promise.  Its resolving functions share one
    already-resolved flag: they act in [Pending] only.  A promise resolved
    with a thenable has that flag set and follows the thenable. *)
Inductive promise_state :=
| Pending
| Following (p : nat)
| Settled (s : settlement).

(** A [Continuation] object: the promise it extends and its public field
    [initialCallStack]; [$_resolve] and [$_reject] are the resolving
    functions of that promise. *)
Record Continuation := MkContinuation {
  state : promise_state;
  initialCallStack : option string
}.

(** One call of a [resumeBy...] method of a continuation, as observed. *)
Inductive notification :=
| Returning (value : resolution)
| Throwing (error : reason).

(** The heap: the fields [lock] and [continuationQueue] of the coalescer
    (the queue holds references), the [Continuation] objects in allocation
    order, the objects that can be thrown, and two observation logs kept for
    the statements: the number of calls of [someFetchRequest] and the calls
    of the [resumeBy...] methods of continuations, oldest first. *)
Record World := MkWorld {
  lock : bool;
  continuationQueue : list nat;
  continuations : list Continuation;
  objects : gmap positive object;
  fetches : nat;
  resumptions : list (nat * notification)
}.

Definition with_lock (b : bool) (w : World) : World :=
  MkWorld b (continuationQueue w) (continuations w) (objects w) (fetches w)
    (resumptions w).

Definition with_continuationQueue (q : list nat) (w : World) : World :=
  MkWorld (lock w) q (continuations w) (objects w) (fetches w) (resumptions w).

Definition with_continuations (cs : list Continuation) (w : World) : World :=
  MkWorld (lock w) (continuationQueue w) cs (objects w) (fetches w)
    (resumptions w).

Definition with_objects (h : gmap positive object) (w : World) : World :=
  MkWorld (lock w) (continuationQueue w) (continuations w) h (fetches w)
    (resumptions w).

Definition with_fetches (n : nat) (w : World) : World :=
  MkWorld (lock w) (continuationQueue w) (continuations w) (objects w) n
    (resumptions w).

Definition with_resumptions (r : list (nat * notification)) (w : World) : World :=
  MkWorld (lock w) (continuationQueue w) (continuations w) (objects w)
    (fetches w) r.

(** The two [await]s of [request]. *)
Inductive awaited :=
| AwaitFetch
| AwaitJson.

(** How a segment ends: normally, by a throw, or suspended at an [await]. *)
Inductive completion (A : Type) :=
| Normal (a : A)
| Throw (e : reason)
| Await (p : awaited).
Global Arguments Normal {A} a.
Global Arguments Throw {A} e.
Global Arguments Await {A} p.

Definition M (A : Type) : Type := World → completion A * World.

Global Instance M_ret : MRet M := λ A a w, (Normal a, w).

Global Instance M_bind : MBind M := λ A B f m w,
  match m w with
  | (Normal a, w') => f a w'
  | (Throw e, w') => (Throw e, w')
  | (Await p, w') => (Await p, w')
  end.

Global Instance M_fmap : FMap M := λ A B f m, m ≫= (λ a, mret (f a)).

Definition throw {A} (e : reason) : M A := λ w, (Throw e, w).
Definition await {A} (p : awaited) : M A := λ w, (Await p, w).
Definition get {A} (f : World → A) : M A := λ w, (Normal (f w), w).
Definition modify (f : World → World) : M unit := λ w, (Normal (), f w).

(** [try { body } catch (e) { handler e } finally { cleanup }].  A segment
    that suspends inside [body] leaves the statement pending: neither the
    handler nor the cleanup runs in this turn.  A cleanup that ends abruptly
    overrides the completion of the block. *)
Definition try_catch_finally {A} (body : M A) (handler : reason → M A)
    (cleanup : M unit) : M A := λ w,
  let finish (r : completion A * World) :=
    match r with
    | (Await p, w1) => (Await p, w1)
    | (c, w1) =>
        match cleanup w1 with
        | (Normal _, w2) => (c, w2)
        | (Throw e, w2) => (Throw e, w2)
        | (Await p, w2) => (Await p, w2)
        end
    end in
  match body w with
  | (Normal a, w1) => finish (Normal a, w1)
  | (Throw e, w1) => finish (handler e w1)
  | (Await p, w1) => (Await p, w1)
  end.

(** [a.forEach(f)], for a callback that leaves the array alone. *)
Fixpoint forEach {A} (a : list A) (f : A → M unit) : M unit :=
  match a with
  | [] => mret ()
  | x :: rest => f x;; forEach rest f
  end.

(** ** class Continuation *)

(** [this.$_resolve(value)] on the promise of a continuation. *)
Definition resolve (value : resolution) (c : Continuation) : Continuation :=
  match state c with
  | Pending =>
      MkContinuation
        match value with
        | Value v => Settled (Fulfilled v)
        | Thenable p => Following p
        end
        (initialCallStack c)
  | _ => c
  end.

(** [this.$_reject(error)]. *)
Definition reject (error : reason) (c : Continuation) : Continuation :=
  match state c with
  | Pending => MkContinuation (Settled (Rejected error)) (initialCallStack c)
  | _ => c
  end.

Definition update_Continuation (this : nat) (f : Continuation → Continuation)
  : M unit :=
  modify (λ w, with_continuations (alter f this (continuations w)) w).

Definition observe (this : nat) (n : notification) : M unit :=
  modify (λ w, with_resumptions (resumptions w ++ [(this, n)]) w).

(** [error.stack = s], for a reference [error]. *)
Definition assign_stack (error : reason) (s : option string → string) : M unit :=
  match error with
  | Ref l =>
      modify (λ w, with_objects
        (alter (λ o, Object (instanceof_Error o) (message o) (Some (s (stack o))))
           l (objects w)) w)
  | Primitive _ => mret ()
  end.

(** [new Continuation<T>()]: the default executor does nothing, the promise
    is pending, and the constructor keeps the call stack of its caller.  The
    new reference is the next free one. *)
Definition Continuation_new (here : option string) : M nat := λ w,
  (Normal (length (continuations w)),
   with_continuations
     (continuations w ++ [MkContinuation Pending (captured_stack here)]) w).

Definition Continuation_resumeByReturning (this : nat) (value : resolution)
  : M unit :=
  observe this (Returning value);;
  update_Continuation this (resolve value).

Definition Continuation_resumeByThrowing (this : nat) (error : reason)
  : M unit :=
  observe this (Throwing error);;
  h ← get objects;
  (if is_Error h error then
     ics ← get (λ w, continuations w !! this ≫= initialCallStack);
     assign_stack error (λ old, rewritten_stack old ics)
   else mret ());;
  update_Continuation this (reject error).

(** ** class RequestCoalescer *)

(** What the body of [request] returns: the decoded payload, or the
    continuation made by [coalesce], which the promise of the call then
    follows. *)
Inductive returned :=
| Payload (payload : T)
| Queued (cont : nat).

(** A call of [someFetchRequest()]: it starts the operation and hands back
    a pending promise. *)
Definition someFetchRequest : M unit :=
  modify (λ w, with_fetches (S (fetches w)) w).

(** The value an [await] evaluates to when the function is resumed. *)
Definition resumed {A} (r : A + reason) : M A :=
  match r with
  | inl a => mret a
  | inr e => throw e
  end.

Definition coalesce (here : option string) : M nat :=
  cont ← Continuation_new here;
  modify (λ w, with_continuationQueue (continuationQueue w ++ [cont]) w);;
  mret cont.

Definition RequestCoalescer_resumeByReturning (result : T) : M unit :=
  queue ← get continuationQueue;
  forEach queue (λ cont, Continuation_resumeByReturning cont (Value result));;
  modify (with_continuationQueue []).

Definition RequestCoalescer_resumeByThrowing (e : reason) : M unit :=
  queue ← get continuationQueue;
  forEach queue (λ cont, Continuation_resumeByThrowing cont e);;
  modify (with_continuationQueue []).

(** The [try ... catch ... finally] of [request] around a part of its
    [try] block. *)
Definition request_try (block : M returned) : M returned :=
  try_catch_finally block
    (λ e, RequestCoalescer_resumeByThrowing e;; throw e)
    (modify (with_lock false)).

(** [request()], from the call to the first [await]. *)
Definition request (here : option string) : M returned :=
  locked ← get lock;
  if locked : bool then Queued <$> coalesce here
  else
    modify (with_lock true);;
    request_try (someFetchRequest;; await AwaitFetch).

(** [request()], resumed when the promise of [someFetchRequest()] has
    settled, up to [await result.json()]. *)
Definition request_after_fetch (response : unit + reason) : M returned :=
  request_try (resumed response;; await AwaitJson).

(** [request()], resumed when the promise of [result.json()] has settled. *)
Definition request_after_json (decoded : T + reason) : M returned :=
  request_try
    (payload ← resumed decoded;
     RequestCoalescer_resumeByReturning payload;;
     mret (Payload payload)).

(** ** The event loop *)

(** A call of [request]: suspended at an [await], or finished. *)
Inductive activation :=
| Suspended (p : awaited)
| Returned (r : returned)
| Raised (e : reason).

(** The program: the heap and the calls of [request] made so far. *)
Record System := MkSystem {
  world : World;
  calls : list activation
}.

(** A turn of the event loop.  [Call here]: a caller invokes [request()]
    ([here] is what [Error().stack] gives in the constructor of
    [Continuation], should the call construct one).  [FetchSettled i r] and
    [JsonSettled i r]: the promise that call [i] awaits has settled. *)
Inductive event :=
| Call (here : option string)
| FetchSettled (i : nat) (r : unit + reason)
| JsonSettled (i : nat) (r : T + reason).

Definition run (m : M returned) (w : World) : activation * World :=
  match m w with
  | (Normal r, w') => (Returned r, w')
  | (Throw e, w') => (Raised e, w')
  | (Await p, w') => (Suspended p, w')
  end.

Definition step (s : System) (ev : event) : option System :=
  match ev with
  | Call here =>
      let '(a, w) := run (request here) (world s) in
      Some (MkSystem w (calls s ++ [a]))
  | FetchSettled i r =>
      match calls s !! i with
      | Some (Suspended AwaitFetch) =>
          let '(a, w) := run (request_after_fetch r) (world s) in
          Some (MkSystem w (<[i:=a]> (calls s)))
      | _ => None
      end
  | JsonSettled i r =>
      match calls s !! i with
      | Some (Suspended AwaitJson) =>
          let '(a, w) := run (request_after_json r) (world s) in
          Some (MkSystem w (<[i:=a]> (calls s)))
      | _ => None
      end
  end.

Fixpoint steps (s : System) (evs : list event) : option System :=
  match evs with
  | [] => Some s
  | ev :: evs' => s' ← step s ev; steps s' evs'
  end.

(** The program start: [new RequestCoalescer()], no call made yet; the
    objects the environment may throw are in [h]. *)
Definition initial (h : gmap positive object) : System :=
  MkSystem (MkWorld false [] [] h 0 []) [].

(** How the promise returned by call [i] has settled, if it has: an async
    function that returns a promise follows it. *)
Definition call_outcome (s : System) (i : nat) : option settlement :=
  match calls s !! i with
  | Some (Returned (Payload v)) => Some (Fulfilled v)
  | Some (Returned (Queued cont)) =>
      match state <$> continuations (world s) !! cont with
      | Some (Settled o) => Some o
      | _ => None
      end
  | Some (Raised e) => Some (Rejected e)
  | _ => None
  end.

(** ** What the statements speak about *)

(** The settlement a notification gives a pending continuation, when the
    notification carries no thenable. *)
Definition settles (n : notification) : option settlement :=
  match n with
  | Returning (Value v) => Some (Fulfilled v)
  | Returning (Thenable _) => None
  | Throwing e => Some (Rejected e)
  end.

(** An event that completes the operation of the leader [i]: the decoding
    settles either way, or the fetch fails.  It comes with the outcome of
    the operation. *)
Definition completes (ev : event) : option (nat * settlement) :=
  match ev with
  | Call _ => None
  | FetchSettled _ (inl _) => None
  | FetchSettled i (inr e) => Some (i, Rejected e)
  | JsonSettled i (inl payload) => Some (i, Fulfilled payload)
  | JsonSettled i (inr e) => Some (i, Rejected e)
  end.

(** What the leader notifies the queue of, for an outcome. *)
Definition notifies (o : settlement) : notification :=
  match o with
  | Fulfilled v => Returning (Value v)
  | Rejected e => Throwing e
  end.

(** How the call of the leader ends, for an outcome. *)
Definition finished (o : settlement) : activation :=
  match o with
  | Fulfilled v => Returned (Payload v)
  | Rejected e => Raised e
  end.

(** The events during which an operation stays in flight. *)
Definition in_flight (ev : event) : Prop := completes ev = None.

(** The continuation a call was queued on. *)
Definition queued_on (a : activation) : option nat :=
  match a with
  | Returned (Queued cont) => Some cont
  | _ => None
  end.

Definition is_suspended (a : activation) : bool :=
  match a with
  | Suspended _ => true
  | _ => false
  end.

(** The states the program can be in. *)
Definition reachable (s : System) : Prop :=
  ∃ h evs, steps (initial h) evs = Some s.

(** The effect of one [cont.resumeBy...] call on the heap. *)
Definition notified (cont : nat) (n : notification) (w : World) : World :=
  match n with
  | Returning value => (Continuation_resumeByReturning cont value w).2
  | Throwing error => (Continuation_resumeByThrowing cont error w).2
  end.

(** The heap after the leader has notified the queue and released the
    lock. *)
Definition settled_world (n : notification) (w : World) : World :=
  with_lock false
    (with_continuationQueue []
       (foldl (λ w cont, notified cont n w) w (continuationQueue w))).

(** What a notification does to the promise of a continuation. *)
Definition settle (n : notification) : Continuation → Continuation :=
  match n with
  | Returning value => resolve value
  | Throwing error => reject error
  end.

(** The heap after a follower has been queued. *)
Definition enqueued (here : option string) (w : World) : World :=
  MkWorld (lock w)
    (continuationQueue w ++ [length (continuations w)])
    (continuations w ++ [MkContinuation Pending (captured_stack here)])
    (objects w) (fetches w) (resumptions w).

(** The heap after a leader has started the operation. *)
Definition started (w : World) : World :=
  MkWorld true (continuationQueue w) (continuations w) (objects w)
    (S (fetches w)) (resumptions w).

(** The continuations after each one of [queue] has been notified of [n],
    in the order of [queue]. *)
Definition settle_all (n : notification) (queue : list nat)
    (cs : list Continuation) : list Continuation :=
  foldl (λ cs' cont, alter (settle n) cont cs') cs queue.

(** What holds of every state the program reaches (see [reachable_Inv]):
    the queue holds each continuation once, and only pending ones; while the
    lock is free the queue is empty and no call is suspended; while it is
    held exactly one call, the leader, is suspended; a call that was queued
    holds a continuation of the heap; no continuation has been resumed
    twice, and none that has been resumed stands in the queue. *)
Record Inv (s : System) : Prop := MkInv {
  inv_nodup : NoDup (continuationQueue (world s));
  inv_pending : ∀ cont, cont ∈ continuationQueue (world s) →
    ∃ ics, continuations (world s) !! cont = Some (MkContinuation Pending ics);
  inv_free : lock (world s) = false →
    continuationQueue (world s) = [] ∧
    ∀ i a, calls s !! i = Some a → is_suspended a = false;
  inv_busy : lock (world s) = true →
    ∃ i p, calls s !! i = Some (Suspended p) ∧
      ∀ j a, calls s !! j = Some a → is_suspended a = true → j = i;
  inv_queued : ∀ i cont, calls s !! i = Some (Returned (Queued cont)) →
    cont < length (continuations (world s));
  inv_once : NoDup (resumptions (world s)).*1;
  inv_resumed : ∀ cont, cont ∈ (resumptions (world s)).*1 →
    cont < length (continuations (world s)) ∧
    cont ∉ continuationQueue (world s)
}.

(** The creation contexts that the calls among [evs] bring, in order. *)
Definition heres (evs : list event) : list (option string) :=
  omap (λ ev, match ev with Call here => Some here | _ => None end) evs.

(** The program while a generation is in flight: from the free state [s] a
    leader has started the operation and is suspended at [p], and followers
    with the creation traces [kept] have arrived since, in that order. *)
Definition generation (s : System) (p : awaited) (kept : list (option string))
  : System :=
  let first := length (continuations (world s)) in
  MkSystem
    (MkWorld true
       (seq first (length kept))
       (continuations (world s) ++ (MkContinuation Pending <$> kept))
       (objects (world s))
       (S (fetches (world s)))
       (resumptions (world s)))
    (calls s ++ Suspended p
       :: ((λ cont, Returned (Queued cont)) <$> seq first (length kept))).

End Coalescer.

(** ** A run of the demo, for the examples *)

Module Demo.

(** The error the fetch fails with. *)
Definition boom : object :=
  Object true "boom"
    (Some (Js.lines ["Error: boom";
                     "    at someFetchRequest (request_coalesce.ts:12:16)"])).

Definition heap : gmap positive object := {[ 1%positive := boom ]}.

(** [Error().stack] in the constructor of the continuation of thread 2 and
    of thread 3. *)
Definition stack_of_thread_2 : option string :=
  Some (Js.lines ["Error";
                  "    at new Continuation (request_coalesce.ts:52:29)";
                  "    at RequestCoalescer.coalesce (request_coalesce.ts:85:18)";
                  "    at thread 2 (request_coalesce.ts:132:36)"]).

Definition stack_of_thread_3 : option string :=
  Some (Js.lines ["Error";
                  "    at new Continuation (request_coalesce.ts:52:29)";
                  "    at RequestCoalescer.coalesce (request_coalesce.ts:85:18)";
                  "    at thread 3 (request_coalesce.ts:138:36)"]).

(** Thread 1 leads; threads 2 and 3 call while its operation is in flight. *)
Definition arrivals : list (@event nat) :=
  [Call stack_of_thread_2; FetchSettled 0 (inl ()); Call stack_of_thread_3].

Definition in_flight_state : @System nat :=
  generation (initial heap) AwaitJson
    [captured_stack stack_of_thread_2; captured_stack stack_of_thread_3].

(** The heap of a busy coalescer with one follower queued. *)
Definition busy_world : @World nat :=
  MkWorld true [0]
    [MkContinuation Pending (captured_stack stack_of_thread_2)] heap 1 [].

End Demo.

(** ** Notions for the further properties *)

(** A text that [split] leaves whole: it holds no line break. *)
Definition one_line (s : string) : Prop := Js.split s = [s].

(** The first line of a trace, as [resumeByThrowing] reads and prints it:
    [error.stack?.split("\n")[0]] as an element of a joined array. *)
Definition header (trace : option string) : string :=
  Js.str (trace ≫= (λ s, Js.split s !! 0)).

(** An object as the code may leave it: the same class and message and the
    same first line of the trace; an object that is no [Error] is the
    same altogether. *)
Definition same_but_trace (o o' : object) : Prop :=
  instanceof_Error o' = instanceof_Error o ∧
  message o' = message o ∧
  header (stack o') = header (stack o) ∧
  (instanceof_Error o = false → o' = o).

(** The continuations of the calls that were queued, in call order. *)
Definition followers {T} (s : @System T) : list nat :=
  omap queued_on (calls s).

(** What else holds of every reachable state (see [reachable_Inv_more]):
    every call either was queued or has invoked the operation; the
    continuations are those of the queued calls, one each, in call order;
    and a continuation is in the queue or settled. *)
Record Inv_more {T} (s : @System T) : Prop := MkInv_more {
  more_accounting :
    fetches (world s) + length (followers s) = length (calls s);
  more_followers :
    followers s = seq 0 (length (continuations (world s)));
  more_settled : ∀ cont k, continuations (world s) !! cont = Some k →
    cont ∈ continuationQueue (world s) ∨ ∃ o, state k = Settled o
}.

(** Further states of the demo: thread 1 leads and nobody has followed yet;
    the generation of [Demo.in_flight_state] has failed with [Demo.boom];
    the heap of [Demo.busy_world] after its continuation was resumed. *)
Definition lone_leader_state : @System nat :=
  generation (initial Demo.heap) AwaitFetch [].

Definition failed_state : @System nat :=
  default (initial Demo.heap)
    (steps (initial Demo.heap)
       (Call None :: Demo.arrivals ++ [JsonSettled 0 (inr (Ref 1))])).

Definition resumed_world : @World nat :=
  (Continuation_resumeByReturning 0 (Value 7) Demo.busy_world).2.

Definition stack_of_thread_4 : option string :=
  Some (Js.lines ["Error";
                  "    at new Continuation (request_coalesce.ts:52:29)";
                  "    at RequestCoalescer.coalesce (request_coalesce.ts:85:18)";
                  "    at thread 4 (request_coalesce.ts:144:36)"]).

(** ** Splitting and joining *)

Lemma Js_split_not_nil s : Js.split s ≠ [].
Proof.
  destruct s as [|c s]; simpl; [done|].
  destruct (Ascii.eqb c Js.LF); [done|]. by destruct (Js.split s).
Qed.

(** Joining the lines of a text gives the text back: [Js.split] loses
    nothing, and its first element is the first line of the text. *)
Lemma Js_join_split s : Js.lines (Js.split s) = s.
Proof.
  unfold Js.lines. induction s as [|c s IH]; [done|]. simpl.
  destruct (Ascii.eqb c Js.LF) eqn:Hc.
  - apply Ascii.eqb_eq in Hc as ->.
    pose proof (Js_split_not_nil s) as Hne.
    destruct (Js.split s) as [|l ls]; [done|].
    rewrite !fmap_cons. rewrite fmap_cons in IH.
    change (Js.join (Some EmptyString :: Some l :: (Some <$> ls)))
      with (String Js.LF (Js.join (Some l :: (Some <$> ls)))).
    by rewrite IH.
  - pose proof (Js_split_not_nil s) as Hne.
    destruct (Js.split s) as [|l ls]; [done|].
    rewrite fmap_cons. rewrite fmap_cons in IH.
    destruct ls as [|l' ls]; simpl in *; by rewrite <- IH.
Qed.

(** ** The segments of the code, run *)

Section Run.

Context {T : Type}.
Implicit Types (w : @World T) (s : @System T) (n : @notification T).
Implicit Types (value : @resolution T) (ev : @event T) (a : @activation T).
Implicit Types (error e : reason) (cont : nat) (here : option string).

Lemma resumeByReturning_run cont value w :
  Continuation_resumeByReturning cont value w
  = (Normal (), notified cont (Returning value) w).
Proof. reflexivity. Qed.

Lemma resumeByThrowing_run cont error w :
  Continuation_resumeByThrowing cont error w
  = (Normal (), notified cont (Throwing error) w).
Proof.
  unfold notified, Continuation_resumeByThrowing, mbind, M_bind, observe,
    modify, get; simpl.
  destruct (is_Error _ error); [destruct error|]; reflexivity.
Qed.

Lemma notified_lock cont n w : lock (notified cont n w) = lock w.
Proof.
  destruct n as [v|e]; [reflexivity|].
  unfold notified, Continuation_resumeByThrowing, mbind, M_bind, observe,
    modify, get; simpl.
  destruct (is_Error _ e); [destruct e|]; reflexivity.
Qed.

Lemma notified_queue cont n w :
  continuationQueue (notified cont n w) = continuationQueue w.
Proof.
  destruct n as [v|e]; [reflexivity|].
  unfold notified, Continuation_resumeByThrowing, mbind, M_bind, observe,
    modify, get; simpl.
  destruct (is_Error _ e); [destruct e|]; reflexivity.
Qed.

Lemma notified_fetches cont n w : fetches (notified cont n w) = fetches w.
Proof.
  destruct n as [v|e]; [reflexivity|].
  unfold notified, Continuation_resumeByThrowing, mbind, M_bind, observe,
    modify, get; simpl.
  destruct (is_Error _ e); [destruct e|]; reflexivity.
Qed.

Lemma notified_resumptions cont n w :
  resumptions (notified cont n w) = resumptions w ++ [(cont, n)].
Proof.
  destruct n as [v|e]; [reflexivity|].
  unfold notified, Continuation_resumeByThrowing, mbind, M_bind, observe,
    modify, get; simpl.
  destruct (is_Error _ e); [destruct e|]; reflexivity.
Qed.

Lemma notified_continuations cont n w :
  continuations (notified cont n w) = alter (settle n) cont (continuations w).
Proof.
  destruct n as [v|e]; [reflexivity|].
  unfold notified, Continuation_resumeByThrowing, mbind, M_bind, observe,
    modify, get; simpl.
  destruct (is_Error _ e); [destruct e|]; reflexivity.
Qed.

Lemma notified_objects_returning cont value w :
  objects (notified cont (Returning value) w) = objects w.
Proof. reflexivity. Qed.

Lemma notified_objects_throwing cont error w :
  objects (notified cont (Throwing error) w)
  = match error with
    | Ref l =>
        if is_Error (objects w) error then
          alter (λ o, Object (instanceof_Error o) (message o)
                        (Some (rewritten_stack (stack o)
                                 (continuations w !! cont ≫= initialCallStack))))
            l (objects w)
        else objects w
    | Primitive _ => objects w
    end.
Proof.
  unfold notified, Continuation_resumeByThrowing, mbind, M_bind, observe,
    modify, get; simpl.
  destruct error as [x|l]; [reflexivity|].
  simpl. destruct (objects w !! l) as [o|]; [|reflexivity].
  destruct (instanceof_Error o); reflexivity.
Qed.

Lemma forEach_run {A} (a : list A) (f : A → M unit) (g : A → World → World) w :
  (∀ x w', f x w' = (Normal (), g x w')) →
  forEach a f w = (Normal (), foldl (λ w' x, g x w') w a).
Proof.
  intros Hf. revert w.
  induction a as [|x a IH]; intros w; [reflexivity|].
  simpl. unfold mbind, M_bind. rewrite Hf. apply IH.
Qed.

Lemma coalescer_resumeByReturning_run result w :
  RequestCoalescer_resumeByReturning result w
  = (Normal (),
     with_continuationQueue []
       (foldl (λ w' cont, notified cont (Returning (Value result)) w') w
          (continuationQueue w))).
Proof.
  unfold RequestCoalescer_resumeByReturning, mbind, M_bind, get. simpl.
  rewrite (forEach_run _ _ (λ c, notified c (Returning (Value result))))
    by (intros; apply resumeByReturning_run).
  reflexivity.
Qed.

Lemma coalescer_resumeByThrowing_run e w :
  RequestCoalescer_resumeByThrowing e w
  = (Normal (),
     with_continuationQueue []
       (foldl (λ w' cont, notified cont (Throwing e) w') w
          (continuationQueue w))).
Proof.
  unfold RequestCoalescer_resumeByThrowing, mbind, M_bind, get. simpl.
  rewrite (forEach_run _ _ (λ c, notified c (Throwing e)))
    by (intros; apply resumeByThrowing_run).
  reflexivity.
Qed.

Lemma request_locked here w :
  lock w = true →
  request here w = (Normal (Queued (length (continuations w))), enqueued here w).
Proof.
  intros Hl. unfold request, mbind, M_bind, get. simpl. rewrite Hl.
  reflexivity.
Qed.

Lemma request_free here w :
  lock w = false → request here w = (Await AwaitFetch, started w).
Proof.
  intros Hl. unfold request, mbind, M_bind, get. simpl. rewrite Hl.
  reflexivity.
Qed.

Lemma request_after_fetch_ok u w :
  request_after_fetch (inl u) w = (Await AwaitJson, w).
Proof. reflexivity. Qed.

Lemma request_after_fetch_failed e w :
  request_after_fetch (inr e) w = (Throw e, settled_world (Throwing e) w).
Proof.
  unfold request_after_fetch, request_try, try_catch_finally, mbind, M_bind.
  simpl. rewrite coalescer_resumeByThrowing_run. reflexivity.
Qed.

Lemma request_after_json_ok payload w :
  request_after_json (inl payload) w
  = (Normal (Payload payload), settled_world (Returning (Value payload)) w).
Proof.
  unfold request_after_json, request_try, try_catch_finally, mbind, M_bind.
  simpl. rewrite coalescer_resumeByReturning_run. reflexivity.
Qed.

Lemma request_after_json_failed e w :
  request_after_json (inr e) w = (Throw e, settled_world (Throwing e) w).
Proof.
  unfold request_after_json, request_try, try_catch_finally, mbind, M_bind.
  simpl. rewrite coalescer_resumeByThrowing_run. reflexivity.
Qed.

(** ** Notifying a queue *)

Lemma notify_all_lock n queue w :
  lock (foldl (λ w' cont, notified cont n w') w queue) = lock w.
Proof.
  revert w. induction queue as [|c q IH]; intros w; simpl; [done|].
  by rewrite IH, notified_lock.
Qed.

Lemma notify_all_queue n queue w :
  continuationQueue (foldl (λ w' cont, notified cont n w') w queue)
  = continuationQueue w.
Proof.
  revert w. induction queue as [|c q IH]; intros w; simpl; [done|].
  by rewrite IH, notified_queue.
Qed.

Lemma notify_all_fetches n queue w :
  fetches (foldl (λ w' cont, notified cont n w') w queue) = fetches w.
Proof.
  revert w. induction queue as [|c q IH]; intros w; simpl; [done|].
  by rewrite IH, notified_fetches.
Qed.

Lemma notify_all_resumptions n queue w :
  resumptions (foldl (λ w' cont, notified cont n w') w queue)
  = resumptions w ++ ((λ cont, (cont, n)) <$> queue).
Proof.
  revert w. induction queue as [|c q IH]; intros w; simpl.
  - by rewrite app_nil_r.
  - by rewrite IH, notified_resumptions, <- app_assoc.
Qed.

Lemma notify_all_continuations n queue w :
  continuations (foldl (λ w' cont, notified cont n w') w queue)
  = settle_all n queue (continuations w).
Proof.
  unfold settle_all.
  revert w. induction queue as [|c q IH]; intros w; simpl; [done|].
  by rewrite IH, notified_continuations.
Qed.

Lemma notify_all_objects_returning value queue w :
  objects (foldl (λ w' cont, notified cont (Returning value) w') w queue)
  = objects w.
Proof.
  revert w. induction queue as [|c q IH]; intros w; simpl; [done|].
  by rewrite IH.
Qed.

Lemma settle_initialCallStack n (k : @Continuation T) :
  initialCallStack (settle n k) = initialCallStack k.
Proof.
  destruct n as [v|e]; simpl; unfold resolve, reject;
    destruct (state k); reflexivity.
Qed.

Lemma settle_pending n o ics :
  settles n = Some o →
  settle n (MkContinuation Pending ics) = MkContinuation (Settled o) ics.
Proof.
  destruct n as [[v|p]|e]; simpl; intros [= <-]; reflexivity.
Qed.

Lemma settle_not_pending n (k : @Continuation T) :
  state k ≠ Pending → settle n k = k.
Proof.
  destruct n as [v|e]; simpl; unfold resolve, reject;
    destruct (state k); congruence.
Qed.

Lemma settle_all_length n queue (cs : list (@Continuation T)) :
  length (settle_all n queue cs) = length cs.
Proof.
  unfold settle_all. revert cs.
  induction queue as [|c q IH]; intros cs; simpl; [done|].
  by rewrite IH, length_alter.
Qed.

Lemma settle_all_other n queue (cs : list (@Continuation T)) cont :
  cont ∉ queue → settle_all n queue cs !! cont = cs !! cont.
Proof.
  unfold settle_all. revert cs.
  induction queue as [|c q IH]; intros cs Hnotin; simpl; [done|].
  rewrite IH by (intros ?; apply Hnotin; by right).
  apply list_lookup_alter_ne. intros ->. apply Hnotin. by left.
Qed.

Lemma settle_all_settled n queue (cs : list (@Continuation T)) cont k :
  cs !! cont = Some k → state k ≠ Pending →
  settle_all n queue cs !! cont = Some k.
Proof.
  unfold settle_all. revert cs.
  induction queue as [|c q IH]; intros cs Hk Hst; simpl; [done|].
  apply IH; [|done].
  destruct (decide (c = cont)) as [->|Hne].
  - rewrite list_lookup_alter_eq, Hk. simpl. by rewrite settle_not_pending.
  - by rewrite list_lookup_alter_ne.
Qed.

Lemma settle_all_member n o queue (cs : list (@Continuation T)) cont ics :
  settles n = Some o → cont ∈ queue →
  cs !! cont = Some (MkContinuation Pending ics) →
  settle_all n queue cs !! cont = Some (MkContinuation (Settled o) ics).
Proof.
  intros Hn. unfold settle_all. revert cs.
  induction queue as [|c q IH]; intros cs Hin Hk; simpl.
  - by apply elem_of_nil in Hin.
  - destruct (decide (c = cont)) as [->|Hne].
    + apply (settle_all_settled n q); [|done].
      rewrite list_lookup_alter_eq, Hk. simpl. by rewrite (settle_pending n o).
    + apply IH.
      * apply elem_of_cons in Hin as [->|Hin]; [done|done].
      * by rewrite list_lookup_alter_ne.
Qed.

(** ** The turns of the event loop *)

Lemma settles_notifies (o : @settlement T) : settles (notifies o) = Some o.
Proof. by destruct o. Qed.

Lemma step_call_locked s here :
  lock (world s) = true →
  step s (Call here)
  = Some (MkSystem (enqueued here (world s))
            (calls s ++ [Returned (Queued (length (continuations (world s))))])).
Proof.
  intros Hl. unfold step, run. by rewrite request_locked.
Qed.

Lemma step_call_free s here :
  lock (world s) = false →
  step s (Call here)
  = Some (MkSystem (started (world s)) (calls s ++ [Suspended AwaitFetch])).
Proof.
  intros Hl. unfold step, run. by rewrite request_free.
Qed.

Lemma step_fetch_ok s i u s' :
  step s (FetchSettled i (inl u)) = Some s' →
  calls s !! i = Some (Suspended AwaitFetch) ∧
  s' = MkSystem (world s) (<[i:=Suspended AwaitJson]> (calls s)).
Proof.
  unfold step. destruct (calls s !! i) as [[[]| |]|]; try done.
  unfold run. rewrite request_after_fetch_ok. by intros [= <-].
Qed.

Lemma step_completes s ev i o s' :
  completes ev = Some (i, o) → step s ev = Some s' →
  (∃ p, calls s !! i = Some (Suspended p)) ∧
  s' = MkSystem (settled_world (notifies o) (world s))
         (<[i:=finished o]> (calls s)).
Proof.
  destruct ev as [here|j [u|e]|j [v|e]]; simpl; try done;
    intros [= -> <-]; unfold step;
    destruct (calls s !! i) as [[[]| |]|]; try done; unfold run.
  - rewrite request_after_fetch_failed. intros [= <-]. eauto.
  - rewrite request_after_json_ok. intros [= <-]. eauto.
  - rewrite request_after_json_failed. intros [= <-]. eauto.
Qed.

Lemma settled_world_lock n w : lock (settled_world n w) = false.
Proof. reflexivity. Qed.

Lemma settled_world_queue n w : continuationQueue (settled_world n w) = [].
Proof. reflexivity. Qed.

Lemma settled_world_fetches n w : fetches (settled_world n w) = fetches w.
Proof. unfold settled_world. simpl. apply notify_all_fetches. Qed.

Lemma settled_world_resumptions n w :
  resumptions (settled_world n w)
  = resumptions w ++ ((λ cont, (cont, n)) <$> continuationQueue w).
Proof. unfold settled_world. simpl. apply notify_all_resumptions. Qed.

Lemma settled_world_continuations n w :
  continuations (settled_world n w)
  = settle_all n (continuationQueue w) (continuations w).
Proof. unfold settled_world. simpl. apply notify_all_continuations. Qed.

(** ** The invariant *)

Lemma fst_notifications n (queue : list nat) :
  ((λ cont, (cont, n)) <$> queue).*1 = queue.
Proof.
  induction queue as [|c q IH]; [done|]. csimpl. by f_equal.
Qed.

Lemma Inv_initial h : Inv (@initial T h).
Proof.
  split; simpl.
  - constructor.
  - intros c Hc. by apply elem_of_nil in Hc.
  - intros _. split; [done|]. intros i a Hi. by rewrite lookup_nil in Hi.
  - done.
  - intros i c Hi. by rewrite lookup_nil in Hi.
  - constructor.
  - intros c Hc. by apply elem_of_nil in Hc.
Qed.

Lemma suspended_holds_lock s i p :
  Inv s → calls s !! i = Some (Suspended p) → lock (world s) = true.
Proof.
  intros HI Hi. destruct (lock (world s)) eqn:Hl; [done|].
  destruct (inv_free s HI Hl) as [_ Hno]. by specialize (Hno _ _ Hi).
Qed.

Lemma Inv_call s here s' : Inv s → step s (Call here) = Some s' → Inv s'.
Proof.
  intros HI. destruct (lock (world s)) eqn:Hl.
  - rewrite step_call_locked by done. intros [= <-].
    destruct (inv_busy s HI Hl) as (i & p & Hi & Huniq).
    split; simpl.
    + apply NoDup_app. split; [apply HI|]. split; [|apply NoDup_singleton].
      intros c Hc Hin. apply list_elem_of_singleton in Hin as ->.
      destruct (inv_pending s HI _ Hc) as [ics Hk].
      apply lookup_lt_Some in Hk. lia.
    + intros c Hc. apply elem_of_app in Hc as [Hc|Hc].
      * destruct (inv_pending s HI _ Hc) as [ics Hk].
        exists ics. by apply lookup_app_l_Some.
      * apply list_elem_of_singleton in Hc as ->.
        eexists. by apply list_lookup_middle.
    + congruence.
    + intros _. exists i, p. split; [by apply lookup_app_l_Some|].
      intros j a Hj Ha. apply lookup_snoc_Some in Hj as [[_ Hj]|[_ <-]];
        [by eapply Huniq|done].
    + intros j c Hj. rewrite length_app. simpl.
      apply lookup_snoc_Some in Hj as [[_ Hj]|[_ [= <-]]]; [|lia].
      pose proof (inv_queued s HI _ _ Hj). lia.
    + apply HI.
    + intros c Hc. destruct (inv_resumed s HI c Hc) as [Hlt Hnotin].
      rewrite length_app. simpl. split; [lia|].
      apply not_elem_of_app. split; [done|].
      rewrite list_elem_of_singleton. lia.
  - rewrite step_call_free by done. intros [= <-].
    destruct (inv_free s HI Hl) as [Hq Hno].
    split; simpl.
    + apply HI.
    + apply HI.
    + done.
    + intros _. exists (length (calls s)), AwaitFetch.
      split; [by apply list_lookup_middle|].
      intros j a Hj Ha. apply lookup_snoc_Some in Hj as [[_ Hj]|[-> _]];
        [|done].
      specialize (Hno _ _ Hj). congruence.
    + intros j c Hj.
      apply lookup_snoc_Some in Hj as [[_ Hj]|[_ [=]]].
      by apply (inv_queued s HI _ _ Hj).
    + apply HI.
    + apply HI.
Qed.

Lemma Inv_fetch_ok s i u s' :
  Inv s → step s (FetchSettled i (inl u)) = Some s' → Inv s'.
Proof.
  intros HI Hstep. apply step_fetch_ok in Hstep as [Hi ->].
  pose proof (suspended_holds_lock s i _ HI Hi) as Hl.
  destruct (inv_busy s HI Hl) as (i0 & p0 & Hi0 & Huniq).
  assert (i = i0) as <- by (by eapply Huniq).
  split; simpl.
  - apply HI.
  - apply HI.
  - congruence.
  - intros _. exists i, AwaitJson. split.
    + apply list_lookup_insert_eq. by eapply lookup_lt_Some.
    + intros j a Hj Ha.
      apply list_lookup_insert_Some in Hj as [(-> & _ & _)|[_ Hj]]; [done|].
      by eapply Huniq.
  - intros j c Hj.
    apply list_lookup_insert_Some in Hj as [(_ & [=] & _)|[_ Hj]].
    by apply (inv_queued s HI _ _ Hj).
  - apply HI.
  - apply HI.
Qed.

Lemma Inv_completes s ev i o s' :
  Inv s → completes ev = Some (i, o) → step s ev = Some s' → Inv s'.
Proof.
  intros HI Hev Hstep.
  destruct (step_completes s ev i o s' Hev Hstep) as [[p Hi] ->].
  pose proof (suspended_holds_lock s i _ HI Hi) as Hl.
  destruct (inv_busy s HI Hl) as (i0 & p0 & Hi0 & Huniq).
  assert (i = i0) as <- by (by eapply Huniq).
  split; simpl.
  - constructor.
  - intros c Hc. by apply elem_of_nil in Hc.
  - intros _. split; [done|]. intros j a Hj.
    apply list_lookup_insert_Some in Hj as [(_ & <- & _)|[Hne Hj]].
    + by destruct o.
    + destruct (is_suspended a) eqn:Ha; [|done].
      destruct Hne. symmetry. by eapply Huniq.
  - done.
  - intros j c Hj. rewrite notify_all_continuations, settle_all_length.
    apply list_lookup_insert_Some in Hj as [(_ & Hfin & _)|[_ Hj]].
    + by destruct o.
    + by apply (inv_queued s HI _ _ Hj).
  - rewrite notify_all_resumptions, fmap_app, fst_notifications.
    apply NoDup_app. split; [apply HI|]. split; [|apply HI].
    intros c Hc. by apply (inv_resumed s HI).
  - intros c. rewrite notify_all_resumptions, fmap_app, fst_notifications.
    rewrite notify_all_continuations, settle_all_length.
    intros Hc. split; [|apply not_elem_of_nil].
    apply elem_of_app in Hc as [Hc|Hc].
    + by apply (inv_resumed s HI).
    + destruct (inv_pending s HI c Hc) as [ics Hk].
      by eapply lookup_lt_Some.
Qed.

Lemma Inv_step s ev s' : Inv s → step s ev = Some s' → Inv s'.
Proof.
  intros HI Hstep. destruct (completes ev) as [[i o]|] eqn:Hev.
  - by eapply Inv_completes.
  - destruct ev as [here|i [u|e]|i [v|e]]; try done.
    + by eapply Inv_call.
    + by eapply Inv_fetch_ok.
Qed.

Lemma Inv_steps evs s s' : Inv s → steps s evs = Some s' → Inv s'.
Proof.
  revert s. induction evs as [|ev evs IH]; intros s HI; simpl.
  - by intros [= <-].
  - destruct (step s ev) as [s1|] eqn:Hstep; [|done]. simpl.
    apply IH. by eapply Inv_step.
Qed.

Lemma reachable_Inv s : reachable s → Inv s.
Proof.
  intros (h & evs & Hrun). eapply Inv_steps; [apply Inv_initial|done].
Qed.

Lemma reachable_steps s evs s' :
  reachable s → steps s evs = Some s' → reachable s'.
Proof.
  intros (h & evs0 & Hrun) Hevs. exists h, (evs0 ++ evs).
  clear -Hrun Hevs. revert Hrun. generalize (@initial T h).
  induction evs0 as [|ev evs0 IH]; intros s0; simpl.
  - by intros [= ->].
  - destruct (step s0 ev) as [s1|]; [|done]. simpl. apply IH.
Qed.

(** ** One generation *)

Lemma generation_leader s p kept i q :
  (∀ j a, calls s !! j = Some a → is_suspended a = false) →
  calls (generation s p kept) !! i = Some (Suspended q) →
  i = length (calls s) ∧ q = p.
Proof.
  intros Hno Hi. unfold generation in Hi. simpl in Hi.
  apply lookup_app_Some in Hi as [Hi|[Hle Hi]].
  - by specialize (Hno _ _ Hi).
  - apply lookup_cons_Some in Hi as [[Hz [= ->]]|[Hpos Hi]].
    + split; [lia|done].
    + rewrite list_lookup_fmap in Hi.
      destruct (seq _ _ !! _); simplify_eq/=.
Qed.

Lemma generation_start s here :
  lock (world s) = false → continuationQueue (world s) = [] →
  step s (Call here) = Some (generation s AwaitFetch []).
Proof.
  intros Hl Hq. rewrite step_call_free by done.
  unfold generation, started. simpl. rewrite Hq, app_nil_r. done.
Qed.

Lemma generation_step s p kept ev s' :
  (∀ j a, calls s !! j = Some a → is_suspended a = false) →
  in_flight ev → step (generation s p kept) ev = Some s' →
  ∃ p', s' = generation s p' (kept ++ (captured_stack <$> heres [ev])).
Proof.
  intros Hno Hev Hstep.
  destruct ev as [here|i [u|e]|i [v|e]]; try done.
  - rewrite step_call_locked in Hstep by done. injection Hstep as <-.
    exists p. unfold generation, enqueued, heres. simpl.
    rewrite !length_app, !length_fmap. simpl. rewrite Nat.add_1_r, seq_S.
    rewrite !fmap_app, <- !app_assoc. simpl. done.
  - apply step_fetch_ok in Hstep as [Hi ->].
    apply generation_leader in Hi as [-> _]; [|done].
    exists AwaitJson. unfold heres. simpl. rewrite app_nil_r.
    unfold generation. simpl. f_equal.
    replace (length (calls s)) with (length (calls s) + 0) at 1 by lia.
    by rewrite insert_app_r.
Qed.

Lemma generation_steps s p kept evs s' :
  (∀ j a, calls s !! j = Some a → is_suspended a = false) →
  Forall in_flight evs → steps (generation s p kept) evs = Some s' →
  ∃ p', s' = generation s p' (kept ++ (captured_stack <$> heres evs)).
Proof.
  intros Hno Hevs. revert p kept.
  induction Hevs as [|ev evs Hev Hevs IH]; intros p kept; simpl.
  - intros [= <-]. exists p. unfold heres. simpl. by rewrite app_nil_r.
  - destruct (step _ ev) as [s1|] eqn:Hstep; [|done]. simpl.
    destruct (generation_step _ _ _ _ _ Hno Hev Hstep) as [p1 ->].
    intros Hrest. destruct (IH _ _ Hrest) as [p2 ->]. exists p2.
    f_equal. rewrite <- app_assoc, <- fmap_app. f_equal. f_equal.
    unfold heres. destruct ev; simpl; done.
Qed.

Lemma steps_cons s ev evs :
  steps s (ev :: evs) = step s ev ≫= λ s', steps s' evs.
Proof. reflexivity. Qed.

Lemma generation_run s here evs s' :
  Inv s → lock (world s) = false → Forall in_flight evs →
  steps s (Call here :: evs) = Some s' →
  ∃ p, s' = generation s p (captured_stack <$> heres evs).
Proof.
  intros HI Hl Hevs. destruct (inv_free s HI Hl) as [Hq Hno].
  rewrite steps_cons, generation_start by done. simpl. intros Hrun.
  destruct (generation_steps _ _ _ _ _ Hno Hevs Hrun) as [p ->].
  by exists p.
Qed.

Lemma generation_completes s p kept ev i o s' :
  (∀ j a, calls s !! j = Some a → is_suspended a = false) →
  completes ev = Some (i, o) → step (generation s p kept) ev = Some s' →
  i = length (calls s) ∧
  s' = MkSystem (settled_world (notifies o) (world (generation s p kept)))
         (calls s ++ finished o
            :: ((λ cont, Returned (Queued cont))
                  <$> seq (length (continuations (world s))) (length kept))).
Proof.
  intros Hno Hev Hstep.
  destruct (step_completes _ _ _ _ _ Hev Hstep) as [[q Hi] ->].
  apply generation_leader in Hi as [-> _]; [|done].
  split; [done|]. f_equal. unfold generation. simpl.
  replace (length (calls s)) with (length (calls s) + 0) at 1 by lia.
  by rewrite insert_app_r.
Qed.

Lemma generation_follower s p kept i :
  length (calls s) < i < length (calls (generation s p kept)) →
  ∃ j ics, i = length (calls s) + S j ∧ kept !! j = Some ics ∧
    calls (generation s p kept) !! i
    = Some (Returned (Queued (length (continuations (world s)) + j))) ∧
    continuationQueue (world (generation s p kept)) !! j
    = Some (length (continuations (world s)) + j) ∧
    continuations (world (generation s p kept))
      !! (length (continuations (world s)) + j)
    = Some (MkContinuation Pending ics).
Proof.
  unfold generation. simpl.
  rewrite length_app. simpl. rewrite length_fmap, length_seq.
  intros Hi. exists (i - S (length (calls s))).
  assert (i - S (length (calls s)) < length kept) as Hj by lia.
  destruct (lookup_lt_is_Some_2 kept _ Hj) as [ics Hics].
  exists ics. split; [lia|]. split; [done|]. split; [|split].
  - rewrite lookup_app_r by lia.
    rewrite lookup_cons_ne_0 by lia.
    rewrite list_lookup_fmap.
    replace (pred (i - length (calls s))) with (i - S (length (calls s)))
      by lia.
    by rewrite lookup_seq_lt.
  - by apply lookup_seq_lt.
  - rewrite lookup_app_r by lia.
    rewrite list_lookup_fmap.
    replace (length (continuations (world s)) + (i - S (length (calls s)))
             - length (continuations (world s)))
      with (i - S (length (calls s))) by lia.
    by rewrite Hics.
Qed.

Lemma calls_always_run s (contexts : list (option string)) :
  is_Some (steps s (Call <$> contexts)).
Proof.
  revert s. induction contexts as [|here rest IH]; intros s; [by eexists|].
  rewrite fmap_cons, steps_cons.
  destruct (lock (world s)) eqn:Hl.
  - rewrite step_call_locked by done. apply IH.
  - rewrite step_call_free by done. apply IH.
Qed.

(** ** The properties of the coalescer *)

(** C1. Of the calls of [request()] that arrive from a free coalescer on,
    before the operation of the first one completes, exactly one invokes the
    underlying operation: the first call is suspended as the leader, the
    count of invocations grows by one, and every later call returns a
    continuation that stands in the follower queue.  Such calls always run
    to their end. *)
Theorem one_operation_per_generation s here :
  reachable s → lock (world s) = false →
  (∀ contexts, is_Some (steps s (Call <$> here :: contexts))) ∧
  ∀ evs s', Forall in_flight evs → steps s (Call here :: evs) = Some s' →
    fetches (world s') = S (fetches (world s)) ∧
    length (calls s') = length (calls s) + S (length (heres evs)) ∧
    (∃ p, calls s' !! length (calls s) = Some (Suspended p)) ∧
    length (continuationQueue (world s')) = length (heres evs) ∧
    ∀ i, length (calls s) < i < length (calls s') →
      ∃ cont, calls s' !! i = Some (Returned (Queued cont)) ∧
        cont ∈ continuationQueue (world s').
Proof.
  intros Hreach Hl. split; [intros; apply calls_always_run|].
  intros evs s' Hevs Hrun.
  destruct (generation_run s here evs s' (reachable_Inv s Hreach) Hl Hevs Hrun)
    as [p ->].
  split; [done|]. split; [|split; [|split]].
  - unfold generation. simpl. rewrite length_app. simpl.
    by rewrite length_fmap, length_seq, length_fmap.
  - exists p. unfold generation. simpl. by apply list_lookup_middle.
  - unfold generation. simpl. by rewrite length_seq, length_fmap.
  - intros i Hi.
    destruct (generation_follower s p _ i Hi) as (j & ics & _ & _ & Hc & Hq & _).
    eexists. split; [exact Hc|]. by eapply list_elem_of_lookup_2.
Qed.

(** C2. In a generation of [N] calls (one leader, [N-1] followers), every
    one of the [N] promises settles as the operation did: all are fulfilled
    with the payload when it succeeds, all are rejected with the very error
    when it fails. *)
Theorem shared_outcome s here evs s1 last i o s2 :
  reachable s → lock (world s) = false → Forall in_flight evs →
  steps s (Call here :: evs) = Some s1 →
  completes last = Some (i, o) → step s1 last = Some s2 →
  i = length (calls s) ∧
  length (calls s2) = length (calls s) + S (length (heres evs)) ∧
  ∀ j, length (calls s) ≤ j < length (calls s2) → call_outcome s2 j = Some o.
Proof.
  intros Hreach Hl Hevs Hrun Hdone Hstep.
  pose proof (reachable_Inv s Hreach) as HI.
  destruct (inv_free s HI Hl) as [_ Hno].
  destruct (generation_run s here evs s1 HI Hl Hevs Hrun) as [p ->].
  destruct (generation_completes _ _ _ _ _ _ _ Hno Hdone Hstep) as [-> ->].
  split; [done|]. split.
  - simpl. rewrite length_app. simpl.
    by rewrite length_fmap, length_seq, length_fmap.
  - intros j Hj. unfold call_outcome.
    destruct (decide (j = length (calls s))) as [->|Hne].
    + simpl. rewrite list_lookup_middle by done. by destruct o.
    + assert (length (calls s) < j < length (calls (generation s p
                (captured_stack <$> heres evs)))) as Hfol.
      { revert Hj. unfold generation. simpl. rewrite !length_app. simpl. lia. }
      destruct (generation_follower s p _ j Hfol)
        as (k & ics & -> & _ & Hc & Hq & Hk).
      assert (calls s ++ finished o
                :: ((λ cont, Returned (Queued cont)) <$>
                    seq (length (continuations (world s)))
                      (length (captured_stack <$> heres evs)))
              = <[length (calls s) + 0 := finished o]>
                  (calls (generation s p (captured_stack <$> heres evs))))
        as Hcalls.
      { unfold generation. simpl. by rewrite insert_app_r. }
      cbn [calls world]. rewrite Hcalls.
      rewrite list_lookup_insert_ne by lia. rewrite Hc.
      rewrite settled_world_continuations.
      erewrite (settle_all_member (notifies o) o);
        [done|apply settles_notifies| |exact Hk].
      by eapply list_elem_of_lookup_2.
Qed.

Lemma resumed_once (log : list (nat * @notification T)) cont :
  NoDup log.*1 → cont ∈ log.*1 →
  length (filter (λ r, r.1 = cont) log) = 1.
Proof.
  induction log as [|[c n] log IH]; csimpl; intros Hnd Hin.
  - by apply elem_of_nil in Hin.
  - apply NoDup_cons in Hnd as [Hnotin Hnd].
    rewrite filter_cons. simpl.
    destruct (decide (c = cont)) as [->|Hne].
    + simpl. f_equal. apply length_zero_iff_nil.
      clear -Hnotin. induction log as [|[c n] log IH]; [done|].
      csimpl in Hnotin. apply not_elem_of_cons in Hnotin as [Hne Hnotin].
      rewrite filter_cons. simpl. rewrite decide_False by done.
      by apply IH.
    + apply IH; [done|].
      apply elem_of_cons in Hin as [->|Hin]; done.
Qed.

(** C3. When the operation of the leader completes, with either outcome,
    the queue is emptied in that same turn and the calls of [resumeBy...]
    made in it are one per queued continuation, each with the outcome of the
    leader: every queued continuation has then been resumed exactly once in
    the whole run, and is settled with that outcome. *)
Theorem queue_drained_once s ev i o s' :
  reachable s → completes ev = Some (i, o) → step s ev = Some s' →
  continuationQueue (world s') = [] ∧
  resumptions (world s')
  = resumptions (world s)
    ++ ((λ cont, (cont, notifies o)) <$> continuationQueue (world s)) ∧
  ∀ cont, cont ∈ continuationQueue (world s) →
    length (filter (λ r, r.1 = cont) (resumptions (world s'))) = 1 ∧
    state <$> continuations (world s') !! cont = Some (Settled o).
Proof.
  intros Hreach Hev Hstep.
  pose proof (reachable_Inv s Hreach) as HI.
  pose proof (Inv_step s ev s' HI Hstep) as HI'.
  destruct (step_completes s ev i o s' Hev Hstep) as [_ ->].
  pose proof (inv_once _ HI') as Hnd. cbn [world] in Hnd.
  cbn [world]. revert Hnd.
  rewrite settled_world_resumptions, settled_world_continuations.
  intros Hnd. split; [done|]. split; [done|].
  intros cont Hin. split.
  - apply resumed_once; [done|].
    rewrite fmap_app, fst_notifications. apply elem_of_app. by right.
  - destruct (inv_pending s HI cont Hin) as [ics Hk].
    by erewrite (settle_all_member (notifies o) o);
      [|apply settles_notifies|done|exact Hk].
Qed.

(** C7. The followers of a generation are notified in the order in which
    they called: the calls of [resumeBy...] that the completion of the
    leader makes, in the order made, are those on the continuations of the
    follower calls in arrival order, which is the order of the queue. *)
Theorem followers_notified_in_arrival_order s here evs s1 last i o s2 :
  reachable s → lock (world s) = false → Forall in_flight evs →
  steps s (Call here :: evs) = Some s1 →
  completes last = Some (i, o) → step s1 last = Some s2 →
  continuationQueue (world s1)
  = omap queued_on (drop (S (length (calls s))) (calls s1)) ∧
  resumptions (world s2)
  = resumptions (world s1)
    ++ ((λ cont, (cont, notifies o))
          <$> omap queued_on (drop (S (length (calls s))) (calls s1))).
Proof.
  intros Hreach Hl Hevs Hrun Hlast Hstep.
  pose proof (reachable_Inv s Hreach) as HI.
  destruct (generation_run s here evs s1 HI Hl Hevs Hrun) as [p ->].
  destruct (step_completes _ _ _ _ _ Hlast Hstep) as [_ ->].
  cbn [world]. rewrite settled_world_resumptions.
  assert (omap queued_on
            (drop (S (length (calls s)))
               (calls (generation s p (captured_stack <$> heres evs))))
          = continuationQueue
              (world (generation s p (captured_stack <$> heres evs))))
    as ->; [|done].
  unfold generation. simpl.
  rewrite cons_middle, app_assoc.
  rewrite drop_app_length' by (rewrite length_app; simpl; lia).
  generalize (seq (length (continuations (world s)))
                (length (captured_stack <$> heres evs))).
  intros l. induction l as [|c l IH]; [done|].
  csimpl. by f_equal.
Qed.

(** C4. The turn in which the leader settles releases the lock, whether the
    operation succeeded or failed; a call of [request()] made next finds the
    lock free, takes it, invokes the operation again and is suspended as the
    new leader. *)
Theorem lock_released_on_both_paths s ev i o s' :
  completes ev = Some (i, o) → step s ev = Some s' →
  lock (world s') = false ∧
  calls s' !! i = Some (finished o) ∧
  ∀ here,
    step s' (Call here)
    = Some (MkSystem (started (world s')) (calls s' ++ [Suspended AwaitFetch])) ∧
    fetches (started (world s')) = S (fetches (world s)).
Proof.
  intros Hev Hstep.
  destruct (step_completes s ev i o s' Hev Hstep) as [[p Hi] ->].
  cbn [world calls]. split; [done|]. split.
  - apply list_lookup_insert_eq. by eapply lookup_lt_Some.
  - intros here. split.
    + by apply step_call_free.
    + simpl. by rewrite notify_all_fetches.
Qed.

(** C9. A call of [request()] on a busy coalescer returns a new pending
    continuation that it has put at the end of the queue, and changes
    nothing else: the lock stays held, the operation is not invoked, the
    other continuations, the objects and the log of resumptions are as
    before. *)
Theorem busy_call_only_enqueues w here :
  lock w = true →
  ∃ w', request here w = (Normal (Queued (length (continuations w))), w') ∧
    lock w' = true ∧
    continuationQueue w' = continuationQueue w ++ [length (continuations w)] ∧
    continuations w'
    = continuations w ++ [MkContinuation Pending (captured_stack here)] ∧
    fetches w' = fetches w ∧
    objects w' = objects w ∧
    resumptions w' = resumptions w.
Proof.
  intros Hl. exists (enqueued here w). rewrite request_locked by done.
  unfold enqueued. simpl. by rewrite Hl.
Qed.

(** C10. [resumeByThrowing] with an argument that is no instance of [Error]
    (a primitive, or a reference to a plain object) leaves every object as
    it is and hands the argument itself to the reject function: a pending
    continuation is then rejected with it. *)
Theorem non_Error_rejected_unmodified w cont error :
  is_Error (objects w) error = false →
  ∃ w', Continuation_resumeByThrowing cont error w = (Normal (), w') ∧
    objects w' = objects w ∧
    continuations w' = alter (reject error) cont (continuations w) ∧
    (∀ ics, continuations w !! cont = Some (MkContinuation Pending ics) →
       continuations w' !! cont
       = Some (MkContinuation (Settled (Rejected error)) ics)) ∧
    lock w' = lock w ∧ continuationQueue w' = continuationQueue w ∧
    fetches w' = fetches w.
Proof.
  intros Hne. exists (notified cont (Throwing error) w).
  rewrite resumeByThrowing_run, notified_objects_throwing, Hne,
    notified_continuations, notified_lock, notified_queue, notified_fetches.
  split; [done|]. split; [by destruct error|]. split; [done|].
  split; [|done].
  intros ics Hk. rewrite list_lookup_alter_eq, Hk. done.
Qed.

(** C8. Once a pending continuation has been resumed with
    [resumeByReturning(v)], a second [resumeByReturning], with any argument,
    completes normally and leaves the continuation, and every other
    continuation and object, as the first call left them: the continuation
    still holds [v]. *)
Theorem second_resumeByReturning_changes_nothing w cont ics v value :
  continuations w !! cont = Some (MkContinuation Pending ics) →
  ∃ w1 w2,
    Continuation_resumeByReturning cont (Value v) w = (Normal (), w1) ∧
    continuations w1 !! cont
    = Some (MkContinuation (Settled (Fulfilled v)) ics) ∧
    Continuation_resumeByReturning cont value w1 = (Normal (), w2) ∧
    continuations w2 = continuations w1 ∧
    objects w2 = objects w1 ∧
    lock w2 = lock w1 ∧ continuationQueue w2 = continuationQueue w1 ∧
    fetches w2 = fetches w1.
Proof.
  intros Hk.
  exists (notified cont (Returning (Value v)) w),
    (notified cont (Returning value) (notified cont (Returning (Value v)) w)).
  assert (continuations (notified cont (Returning (Value v)) w) !! cont
          = Some (MkContinuation (Settled (Fulfilled v)) ics)) as Hk1.
  { rewrite notified_continuations, list_lookup_alter_eq, Hk. done. }
  split; [done|]. split; [done|]. split; [done|]. split; [|done].
  rewrite (notified_continuations cont (Returning value)).
  apply list_eq. intros j. destruct (decide (cont = j)) as [<-|Hne].
  - rewrite list_lookup_alter_eq, Hk1. done.
  - by rewrite list_lookup_alter_ne.
Qed.

(** C6, as the code has it. [resumeByThrowing(error)] with an instance
    of [Error] rejects a pending continuation with that very object, and
    overwrites the [stack] of the object: the new text is the first line of
    the old one, a line break, and the creation context the continuation
    kept.  The lines of the old text after the first are not kept; no other
    object changes. *)
Theorem resumeByThrowing_rewrites_stack w cont k l o :
  continuations w !! cont = Some k → objects w !! l = Some o →
  instanceof_Error o = true →
  ∃ w', Continuation_resumeByThrowing cont (Ref l) w = (Normal (), w') ∧
    continuations w' = alter (reject (Ref l)) cont (continuations w) ∧
    (state k = Pending →
       continuations w' !! cont
       = Some (MkContinuation (Settled (Rejected (Ref l))) (initialCallStack k))) ∧
    objects w' !! l
    = Some (Object true (message o)
              (Some (rewritten_stack (stack o) (initialCallStack k)))) ∧
    (∀ l', l' ≠ l → objects w' !! l' = objects w !! l') ∧
    (∀ trace first rest context,
       stack o = Some trace → Js.split trace = first :: rest →
       initialCallStack k = Some context →
       trace = Js.lines (first :: rest) ∧
       rewritten_stack (stack o) (initialCallStack k)
       = Js.lines [first; context]).
Proof.
  intros Hk Ho HE. exists (notified cont (Throwing (Ref l)) w).
  rewrite resumeByThrowing_run, notified_objects_throwing,
    notified_continuations.
  simpl. rewrite Ho, HE, Hk. simpl.
  split; [done|]. split; [done|]. split; [|split; [|split]].
  - intros Hst. rewrite list_lookup_alter_eq, Hk. simpl.
    unfold reject. by rewrite Hst.
  - rewrite lookup_alter_eq, Ho. simpl. by rewrite HE.
  - intros l' Hne. by rewrite lookup_alter_ne.
  - intros trace first rest context -> Hsplit ->. split.
    + by rewrite <- Hsplit, Js_join_split.
    + unfold rewritten_stack. simpl. by rewrite Hsplit.
Qed.

End Run.

(** ** The properties on the run of the demo *)

Lemma Demo_reachable : reachable (@initial nat Demo.heap).
Proof. exists Demo.heap, []. reflexivity. Defined.

Lemma Demo_in_flight : Forall in_flight Demo.arrivals.
Proof. repeat constructor. Defined.

Lemma Demo_arrivals_run :
  steps (initial Demo.heap) (Call None :: Demo.arrivals)
  = Some Demo.in_flight_state.
Proof. vm_compute. reflexivity. Defined.

Lemma Demo_busy_reachable : reachable Demo.in_flight_state.
Proof.
  exists Demo.heap, (Call None :: Demo.arrivals). exact Demo_arrivals_run.
Defined.

(** Three calls, the fetch of the first still in flight: one invocation, two
    followers in the queue. *)
Lemma one_operation_per_generation_witness :
  fetches (world Demo.in_flight_state) = 1 ∧
  length (calls Demo.in_flight_state) = 3 ∧
  continuationQueue (world Demo.in_flight_state) = [0; 1] ∧
  calls Demo.in_flight_state !! 2 = Some (Returned (Queued 1)).
Proof.
  pose proof (proj2 (one_operation_per_generation (initial Demo.heap) None
                       Demo_reachable eq_refl)
                Demo.arrivals Demo.in_flight_state
                Demo_in_flight Demo_arrivals_run) as (Hf & Hn & _).
  split; [exact Hf|]. split; [exact Hn|]. split; reflexivity.
Defined.

(** The decoding gives [7]: the three calls are fulfilled with [7]. *)
Lemma shared_outcome_witness :
  ∃ s2, step Demo.in_flight_state (JsonSettled 0 (inl 7)) = Some s2 ∧
    call_outcome s2 0 = Some (Fulfilled 7) ∧
    call_outcome s2 1 = Some (Fulfilled 7) ∧
    call_outcome s2 2 = Some (Fulfilled 7).
Proof.
  eexists. split; [vm_compute; reflexivity|].
  pose proof (shared_outcome (initial Demo.heap) None Demo.arrivals
                Demo.in_flight_state (JsonSettled 0 (inl 7)) 0 (Fulfilled 7) _
                Demo_reachable eq_refl Demo_in_flight Demo_arrivals_run
                eq_refl eq_refl) as (_ & _ & Hall).
  split; [|split]; apply Hall; vm_compute; lia.
Defined.

(** The decoding fails with the error [boom]: both queued continuations are
    resumed once, and the queue is empty. *)
Lemma queue_drained_once_witness :
  ∃ s', step Demo.in_flight_state (JsonSettled 0 (inr (Ref 1))) = Some s' ∧
    continuationQueue (world s') = [] ∧
    resumptions (world s')
    = [(0, Throwing (Ref 1)); (1, Throwing (Ref 1))].
Proof.
  eexists. split; [vm_compute; reflexivity|].
  pose proof (queue_drained_once Demo.in_flight_state
                (JsonSettled 0 (inr (Ref 1))) 0 (Rejected (Ref 1)) _
                Demo_busy_reachable eq_refl eq_refl) as (Hq & Hr & _).
  split; [exact Hq|exact Hr].
Defined.

(** Thread 2 called before thread 3 and is notified before it. *)
Lemma followers_notified_in_arrival_order_witness :
  ∃ s2, step Demo.in_flight_state (JsonSettled 0 (inl 7)) = Some s2 ∧
    resumptions (world s2)
    = [(0, Returning (Value 7)); (1, Returning (Value 7))].
Proof.
  eexists. split; [vm_compute; reflexivity|].
  pose proof (followers_notified_in_arrival_order (initial Demo.heap) None
                Demo.arrivals Demo.in_flight_state (JsonSettled 0 (inl 7)) 0
                (Fulfilled 7) _
                Demo_reachable eq_refl Demo_in_flight Demo_arrivals_run
                eq_refl eq_refl) as (_ & Hr).
  exact Hr.
Defined.

(** The fetch fails: the lock is free again and the next call leads. *)
Lemma lock_released_on_both_paths_witness :
  ∃ s', step Demo.in_flight_state (JsonSettled 0 (inr (Ref 1))) = Some s' ∧
    lock (world s') = false ∧
    calls s' !! 0 = Some (Raised (Ref 1)) ∧
    ∃ s'', step s' (Call None) = Some s'' ∧ fetches (world s'') = 2.
Proof.
  eexists. split; [vm_compute; reflexivity|].
  pose proof (lock_released_on_both_paths Demo.in_flight_state
                (JsonSettled 0 (inr (Ref 1))) 0 (Rejected (Ref 1)) _
                eq_refl eq_refl) as (Hl & Hc & Hnext).
  split; [exact Hl|]. split; [exact Hc|].
  destruct (Hnext None) as [Hstep Hf].
  eexists. split; [exact Hstep|exact Hf].
Defined.

Lemma busy_call_only_enqueues_witness :
  lock Demo.busy_world = true ∧
  ∃ w', request Demo.stack_of_thread_3 Demo.busy_world
        = (Normal (Queued 1), w') ∧
    continuationQueue w' = [0; 1] ∧ fetches w' = 1.
Proof.
  split; [reflexivity|].
  destruct (busy_call_only_enqueues Demo.busy_world Demo.stack_of_thread_3
              eq_refl) as (w' & Hrun & _ & Hq & _ & Hf & _).
  exists w'. split; [exact Hrun|]. split; [exact Hq|exact Hf].
Defined.

Lemma non_Error_rejected_unmodified_witness :
  is_Error (objects Demo.busy_world) (Primitive "timeout") = false ∧
  ∃ w', Continuation_resumeByThrowing 0 (Primitive "timeout") Demo.busy_world
        = (Normal (), w') ∧
    objects w' = Demo.heap ∧
    state <$> continuations w' !! 0
    = Some (Settled (Rejected (Primitive "timeout"))).
Proof.
  split; [reflexivity|].
  destruct (non_Error_rejected_unmodified Demo.busy_world 0
              (Primitive "timeout") eq_refl)
    as (w' & Hrun & Ho & _ & Hk & _).
  exists w'. split; [exact Hrun|]. split; [exact Ho|].
  rewrite (Hk _ eq_refl). reflexivity.
Defined.

Lemma second_resumeByReturning_changes_nothing_witness :
  ∃ w1 w2,
    Continuation_resumeByReturning 0 (Value 7) Demo.busy_world
    = (Normal (), w1) ∧
    Continuation_resumeByReturning 0 (Value 8) w1 = (Normal (), w2) ∧
    state <$> continuations w2 !! 0 = Some (Settled (Fulfilled 7)).
Proof.
  destruct (second_resumeByReturning_changes_nothing Demo.busy_world 0 _ 7
              (Value 8) eq_refl)
    as (w1 & w2 & H1 & Hk & H2 & Hsame & _).
  exists w1, w2. split; [exact H1|]. split; [exact H2|].
  rewrite Hsame, Hk. reflexivity.
Defined.

Lemma resumeByThrowing_rewrites_stack_witness :
  ∃ w', Continuation_resumeByThrowing 0 (Ref 1) Demo.busy_world
        = (Normal (), w') ∧
    stack <$> objects w' !! 1%positive
    = Some (Some (Js.lines
        ["Error: boom";
         "    at RequestCoalescer.coalesce (request_coalesce.ts:85:18)";
         "    at thread 2 (request_coalesce.ts:132:36)"])).
Proof.
  destruct (resumeByThrowing_rewrites_stack Demo.busy_world 0 _ 1%positive
              Demo.boom eq_refl eq_refl eq_refl)
    as (w' & Hrun & _ & _ & Ho & _).
  exists w'. split; [exact Hrun|]. rewrite Ho. vm_compute. reflexivity.
Defined.

(** C6, against the wording of the claim: an error that came from
    [someFetchRequest] is thrown into the continuation of thread 2.  Its
    trace afterwards is not the old trace with the creation context added
    at the end, and the line that said where the error came from is gone. *)
Lemma trace_is_not_appended_to :
  ∃ w', Continuation_resumeByThrowing 0 (Ref 1) Demo.busy_world
        = (Normal (), w') ∧
    stack <$> objects w' !! 1%positive
    ≠ Some (Some (Js.lines
        [Js.str (stack Demo.boom);
         Js.str (captured_stack Demo.stack_of_thread_2)])) ∧
    ∀ trace, stack <$> objects w' !! 1%positive = Some (Some trace) →
      "    at someFetchRequest (request_coalesce.ts:12:16)" ∉ Js.split trace.
Proof.
  eexists. split; [vm_compute; reflexivity|]. split.
  - vm_compute. discriminate.
  - intros trace. vm_compute. intros [= <-]. vm_compute.
    intros Hin. repeat (apply elem_of_cons in Hin as [Hin|Hin];
                        [discriminate Hin|]).
    by apply elem_of_nil in Hin.
Qed.

(** C5, at the failing input: the fetch of thread 1 fails with the error
    [boom] while threads 2 and 3 are queued.  All three calls are rejected
    with that one object; its trace, written once per follower, ends up
    with the creation context of thread 3 alone, and the rejection thread 2
    sees carries nothing of where thread 2 called. *)
Theorem shared_error_keeps_last_trace_only :
  ∃ s', step Demo.in_flight_state (JsonSettled 0 (inr (Ref 1))) = Some s' ∧
    call_outcome s' 0 = Some (Rejected (Ref 1)) ∧
    call_outcome s' 1 = Some (Rejected (Ref 1)) ∧
    call_outcome s' 2 = Some (Rejected (Ref 1)) ∧
    initialCallStack <$> continuations (world s') !! 0
    = Some (Some (Js.lines
        ["    at RequestCoalescer.coalesce (request_coalesce.ts:85:18)";
         "    at thread 2 (request_coalesce.ts:132:36)"])) ∧
    stack <$> objects (world s') !! 1%positive
    = Some (Some (Js.lines
        ["Error: boom";
         "    at RequestCoalescer.coalesce (request_coalesce.ts:85:18)";
         "    at thread 3 (request_coalesce.ts:138:36)"])) ∧
    ∀ trace, stack <$> objects (world s') !! 1%positive = Some (Some trace) →
      "    at thread 2 (request_coalesce.ts:132:36)" ∉ Js.split trace.
Proof.
  eexists. split; [vm_compute; reflexivity|].
  do 5 (split; [vm_compute; reflexivity|]).
  intros trace. vm_compute. intros [= <-]. vm_compute.
  intros Hin. repeat (apply elem_of_cons in Hin as [Hin|Hin];
                      [discriminate Hin|]).
  by apply elem_of_nil in Hin.
Qed.

(** ** Lines and headers *)

Lemma split_after_line a t :
  one_line a → Js.split (a +:+ String Js.LF t) = a :: Js.split t.
Proof.
  unfold one_line. induction a as [|c a IH]; simpl.
  - done.
  - destruct (Ascii.eqb c Js.LF); [done|].
    destruct (Js.split a) as [|l ls] eqn:Ha; [by intros [= <-]|].
    intros [= -> ->]. by rewrite IH.
Qed.

Lemma split_head_one_line s first rest :
  Js.split s = first :: rest → one_line first.
Proof.
  unfold one_line. revert first rest.
  induction s as [|c s IH]; simpl; intros first rest.
  - by intros [= <- <-].
  - destruct (Ascii.eqb c Js.LF) eqn:Hc; [by intros [= <- <-]|].
    destruct (Js.split s) as [|l ls] eqn:Hs.
    + intros [= <- <-]. simpl. by rewrite Hc.
    + intros [= <- <-]. simpl. rewrite Hc. by rewrite (IH l ls).
Qed.

Lemma split_lines (l : list string) :
  l ≠ [] → Forall one_line l → Js.split (Js.lines l) = l.
Proof.
  unfold Js.lines. intros Hne Hl. induction Hl as [|a l Ha Hl IH]; [done|].
  destruct l as [|b l]; [exact Ha|].
  rewrite fmap_cons.
  change (Js.join (Some a :: (Some <$> b :: l)))
    with (a +:+ String Js.LF (Js.join (Some <$> b :: l))).
  rewrite split_after_line by done. by rewrite IH.
Qed.

Lemma header_one_line trace : one_line (header trace).
Proof.
  unfold header. destruct trace as [s|]; simpl; [|done].
  destruct (Js.split s) as [|first rest] eqn:Hs; simpl; [done|].
  by eapply split_head_one_line.
Qed.

Lemma rewritten_stack_header old ics :
  rewritten_stack old ics = header old +:+ String Js.LF (Js.str ics).
Proof. reflexivity. Qed.

Lemma header_rewritten_stack old ics :
  header (Some (rewritten_stack old ics)) = header old.
Proof.
  rewrite rewritten_stack_header. unfold header at 1. simpl.
  by rewrite split_after_line by apply header_one_line.
Qed.

(** ** More on every reachable state *)

Section More.

Context {T : Type}.
Implicit Types (w : @World T) (s : @System T) (n : @notification T).
Implicit Types (value : @resolution T) (ev : @event T) (a : @activation T).
Implicit Types (error e : reason) (cont : nat) (here : option string).

Lemma followers_snoc s w a :
  followers (MkSystem w (calls s ++ [a]))
  = followers s ++ match queued_on a with Some c => [c] | None => [] end.
Proof.
  unfold followers. cbn [calls]. by rewrite omap_app.
Qed.

Lemma followers_insert s w i a0 a :
  calls s !! i = Some a0 → queued_on a0 = None → queued_on a = None →
  followers (MkSystem w (<[i:=a]> (calls s))) = followers s.
Proof.
  unfold followers. simpl. generalize (calls s). clear s.
  intros l. revert i. induction l as [|b l IH]; intros i; [done|].
  destruct i as [|i]; csimpl.
  - intros [= ->] H0 Ha. by rewrite H0, Ha.
  - intros Hi H0 Ha. by rewrite (IH i).
Qed.

Lemma Inv_more_initial h : Inv_more (@initial T h).
Proof.
  split; simpl; [done|done|].
  intros c k Hc. by rewrite lookup_nil in Hc.
Qed.

Lemma Inv_more_step s ev s' :
  Inv s → Inv_more s → step s ev = Some s' → Inv_more s'.
Proof.
  intros HI HM Hstep.
  destruct (completes ev) as [[i o]|] eqn:Hev.
  - destruct (step_completes s ev i o s' Hev Hstep) as [[p Hi] ->].
    assert (followers (MkSystem (settled_world (notifies o) (world s))
                         (<[i:=finished o]> (calls s))) = followers s) as Hf.
    { eapply followers_insert; [exact Hi|done|by destruct o]. }
    split; rewrite ?Hf; cbn [world calls].
    + rewrite settled_world_fetches, length_insert. apply HM.
    + rewrite settled_world_continuations, settle_all_length. apply HM.
    + rewrite settled_world_continuations. intros c k' Hk'. right.
      assert (c < length (continuations (world s))) as Hlt.
      { apply lookup_lt_Some in Hk'. by rewrite settle_all_length in Hk'. }
      destruct (lookup_lt_is_Some_2 _ _ Hlt) as [k Hk].
      destruct (more_settled s HM c k Hk) as [Hin|[o0 Hst]].
      * destruct (inv_pending s HI c Hin) as [ics Hpend].
        rewrite (settle_all_member (notifies o) o _ _ _ ics) in Hk';
          [|apply settles_notifies|done|done].
        injection Hk' as <-. by exists o.
      * rewrite (settle_all_settled _ _ _ _ k) in Hk'; [|done|by rewrite Hst].
        injection Hk' as <-. by exists o0.
  - destruct ev as [here|i [u|e]|i [v|e]]; try done.
    + destruct (lock (world s)) eqn:Hl.
      * rewrite step_call_locked in Hstep by done. injection Hstep as <-.
        split; rewrite ?followers_snoc; cbn [world calls queued_on].
        -- rewrite !length_app. simpl.
           pose proof (more_accounting s HM). lia.
        -- unfold enqueued. simpl. rewrite length_app. simpl.
           rewrite Nat.add_1_r, seq_S. simpl. f_equal. apply HM.
        -- unfold enqueued. simpl. intros c k Hk.
           apply lookup_snoc_Some in Hk as [[_ Hk]|[-> <-]].
           ++ destruct (more_settled s HM c k Hk) as [Hin|Hst]; [|by right].
              left. apply elem_of_app. by left.
           ++ left. apply elem_of_app. right. by apply list_elem_of_singleton.
      * rewrite step_call_free in Hstep by done. injection Hstep as <-.
        split; rewrite ?followers_snoc; cbn [world calls queued_on];
          rewrite ?app_nil_r.
        -- rewrite length_app. simpl.
           pose proof (more_accounting s HM). lia.
        -- apply HM.
        -- apply HM.
    + apply step_fetch_ok in Hstep as [Hi ->].
      assert (followers (MkSystem (world s)
                           (<[i:=Suspended AwaitJson]> (calls s)))
              = followers s) as Hf.
      { eapply followers_insert; [exact Hi|done|done]. }
      split; rewrite ?Hf; cbn [world calls].
      * rewrite length_insert. apply HM.
      * apply HM.
      * apply HM.
Qed.

Lemma Inv_more_steps evs s s' :
  Inv s → Inv_more s → steps s evs = Some s' → Inv_more s'.
Proof.
  revert s. induction evs as [|ev evs IH]; intros s HI HM; simpl.
  - by intros [= <-].
  - destruct (step s ev) as [s1|] eqn:Hstep; [|done]. simpl.
    apply IH; [by eapply Inv_step|by eapply Inv_more_step].
Qed.

Lemma reachable_Inv_more s : reachable s → Inv_more s.
Proof.
  intros (h & evs & Hrun).
  eapply Inv_more_steps; [apply Inv_initial|apply Inv_more_initial|done].
Qed.

(** X1. The lock is held exactly while a call is suspended as the leader;
    at most one call is suspended at a time; and the queue is empty
    whenever the lock is free. *)
Theorem lock_held_iff_leader_in_flight s :
  reachable s →
  (lock (world s) = true ↔ ∃ i p, calls s !! i = Some (Suspended p)) ∧
  (∀ i j p q, calls s !! i = Some (Suspended p) →
     calls s !! j = Some (Suspended q) → i = j) ∧
  (lock (world s) = false → continuationQueue (world s) = []).
Proof.
  intros Hr. pose proof (reachable_Inv s Hr) as HI. split; [split|split].
  - intros Hl. destruct (inv_busy s HI Hl) as (i & p & Hi & _). eauto.
  - intros (i & p & Hi). by eapply suspended_holds_lock.
  - intros i j p q Hi Hj.
    pose proof (suspended_holds_lock s i p HI Hi) as Hl.
    destruct (inv_busy s HI Hl) as (i0 & p0 & _ & Huniq).
    by rewrite (Huniq i _ Hi eq_refl), (Huniq j _ Hj eq_refl).
  - intros Hl. by destruct (inv_free s HI Hl).
Qed.

(** X2. Every call of [request()] made so far either was queued on a
    continuation or invoked [someFetchRequest], never both and never
    neither: invocations and queued calls add up to the calls. *)
Theorem every_call_leads_or_follows s :
  reachable s →
  fetches (world s) + length (followers s) = length (calls s).
Proof. intros Hr. apply reachable_Inv_more, Hr. Qed.



(** X4. A call whose promise has not settled is the suspended leader or a
    follower whose continuation stands in the queue, and then the lock is
    held; so whenever the coalescer is free, every call made so far has
    settled: no caller is left waiting. *)
Theorem no_caller_left_waiting s :
  reachable s →
  (∀ i a, calls s !! i = Some a → call_outcome s i = None →
     lock (world s) = true ∧
     (is_suspended a = true ∨
      ∃ cont, a = Returned (Queued cont) ∧
        cont ∈ continuationQueue (world s))) ∧
  (lock (world s) = false →
     ∀ i, i < length (calls s) → is_Some (call_outcome s i)).
Proof.
  intros Hr. pose proof (reachable_Inv s Hr) as HI.
  pose proof (reachable_Inv_more s Hr) as HM.
  assert (∀ i a, calls s !! i = Some a → call_outcome s i = None →
     lock (world s) = true ∧
     (is_suspended a = true ∨
      ∃ cont, a = Returned (Queued cont) ∧
        cont ∈ continuationQueue (world s))) as Hgen.
  { intros i a Hi. unfold call_outcome. rewrite Hi.
    destruct a as [p|[v|c]|e]; try done.
    - intros _. split; [by eapply suspended_holds_lock|by left].
    - pose proof (inv_queued s HI i c Hi) as Hlt.
      destruct (lookup_lt_is_Some_2 _ _ Hlt) as [k Hk]. rewrite Hk. simpl.
      destruct (more_settled s HM c k Hk) as [Hin|[o Hst]].
      + intros _. split; [|right; eauto].
        destruct (lock (world s)) eqn:Hl; [done|].
        destruct (inv_free s HI Hl) as [Hq _]. rewrite Hq in Hin.
        by apply elem_of_nil in Hin.
      + by rewrite Hst. }
  split; [exact Hgen|].
  intros Hl i Hi. destruct (lookup_lt_is_Some_2 _ _ Hi) as [a Ha].
  destruct (call_outcome s i) eqn:Hout; [by eexists|].
  destruct (Hgen i a Ha Hout) as [Hl' _]. congruence.
Qed.

Lemma step_keeps_outcome s ev s' i o :
  step s ev = Some s' → call_outcome s i = Some o → call_outcome s' i = Some o.
Proof.
  intros Hstep. unfold call_outcome.
  destruct (calls s !! i) as [a|] eqn:Hi; [|done].
  assert (is_suspended a = false →
          calls s' !! i = Some a ∧
          ∀ c k, continuations (world s) !! c = Some k → state k ≠ Pending →
            continuations (world s') !! c = Some k) as Hkeep.
  { intros Ha. destruct (completes ev) as [[j o']|] eqn:Hev.
    - destruct (step_completes s ev j o' s' Hev Hstep) as [[p Hj] ->].
      cbn [calls world]. split.
      + rewrite list_lookup_insert_ne; [done|]. intros ->.
        rewrite Hi in Hj. by injection Hj as ->.
      + intros c k Hk Hst. rewrite settled_world_continuations.
        by apply settle_all_settled.
    - destruct ev as [here|j [u|e]|j [v|e]]; try done.
      + destruct (lock (world s)) eqn:Hl.
        * rewrite step_call_locked in Hstep by done. injection Hstep as <-.
          cbn [calls world]. split; [by apply lookup_app_l_Some|].
          intros c k Hk _. unfold enqueued. simpl.
          by apply lookup_app_l_Some.
        * rewrite step_call_free in Hstep by done. injection Hstep as <-.
          cbn [calls world]. split; [by apply lookup_app_l_Some|done].
      + apply step_fetch_ok in Hstep as [Hj ->]. cbn [calls world].
        split; [|done].
        rewrite list_lookup_insert_ne; [done|]. intros ->.
        rewrite Hi in Hj. by injection Hj as ->. }
  destruct a as [p|[v|c]|e]; try done.
  - destruct (Hkeep eq_refl) as [-> _]. done.
  - destruct (Hkeep eq_refl) as [-> Hconts].
    destruct (continuations (world s) !! c) as [k|] eqn:Hk; [|done].
    simpl. destruct (state k) as [| |o0] eqn:Hst; try done.
    intros [= ->]. rewrite (Hconts c k Hk) by (by rewrite Hst).
    simpl. by rewrite Hst.
  - destruct (Hkeep eq_refl) as [-> _]. done.
Qed.

(** X5. A promise that has settled stays as it is: whatever happens later
    (more calls, later generations, other outcomes), a call that was
    fulfilled with a payload or rejected with a reason remains so. *)
Theorem outcomes_are_final s evs s' i o :
  steps s evs = Some s' → call_outcome s i = Some o →
  call_outcome s' i = Some o.
Proof.
  revert s. induction evs as [|ev evs IH]; intros s; simpl.
  - by intros [= <-].
  - destruct (step s ev) as [s1|] eqn:Hstep; [|done]. simpl.
    intros Hrun Hout. apply (IH s1 Hrun). by eapply step_keeps_outcome.
Qed.

Lemma alter_settled n (cs : list (@Continuation T)) cont k :
  cs !! cont = Some k → state k ≠ Pending → alter (settle n) cont cs = cs.
Proof.
  intros Hk Hst. apply list_eq. intros j.
  destruct (decide (cont = j)) as [<-|Hne].
  - rewrite list_lookup_alter_eq, Hk. simpl. by rewrite settle_not_pending.
  - by rewrite list_lookup_alter_ne.
Qed.

(** X6. A continuation that is no longer pending ignores both resume
    methods: neither changes any continuation.  [resumeByThrowing] with
    an instance of [Error] overwrites the trace of the error all the same,
    although nothing is rejected with it. *)
Theorem settled_continuation_ignores_resumption w cont k value error :
  continuations w !! cont = Some k → state k ≠ Pending →
  (∃ w1, Continuation_resumeByReturning cont value w = (Normal (), w1) ∧
     continuations w1 = continuations w ∧ objects w1 = objects w) ∧
  (∃ w2, Continuation_resumeByThrowing cont error w = (Normal (), w2) ∧
     continuations w2 = continuations w ∧
     ∀ l o, error = Ref l → objects w !! l = Some o →
       instanceof_Error o = true →
       objects w2 !! l
       = Some (Object true (message o)
                 (Some (rewritten_stack (stack o) (initialCallStack k))))).
Proof.
  intros Hk Hst. split.
  - exists (notified cont (Returning value) w).
    rewrite resumeByReturning_run, notified_continuations.
    split; [done|]. split; [|done]. by eapply alter_settled.
  - exists (notified cont (Throwing error) w).
    rewrite resumeByThrowing_run, notified_continuations.
    split; [done|]. split; [by eapply alter_settled|].
    intros l o -> Ho HE. rewrite notified_objects_throwing. simpl.
    rewrite Ho, HE, lookup_alter_eq, Ho, Hk. simpl. by rewrite HE.
Qed.

Lemma settle_all_initialCallStack n queue (cs : list (@Continuation T)) cont k :
  cs !! cont = Some k →
  initialCallStack <$> settle_all n queue cs !! cont
  = Some (initialCallStack k).
Proof.
  unfold settle_all. revert cs k.
  induction queue as [|c q IH]; intros cs k Hk; simpl; [by rewrite Hk|].
  destruct (decide (c = cont)) as [->|Hne].
  - erewrite IH; [|by rewrite list_lookup_alter_eq, Hk].
    by rewrite settle_initialCallStack.
  - apply IH. by rewrite list_lookup_alter_ne.
Qed.

Lemma same_but_trace_refl o : same_but_trace o o.
Proof. by repeat split. Qed.

Lemma same_but_trace_trans o1 o2 o3 :
  same_but_trace o1 o2 → same_but_trace o2 o3 → same_but_trace o1 o3.
Proof.
  intros (HE & Hm & Hh & Hid) (HE' & Hm' & Hh' & Hid').
  split; [by rewrite HE'|]. split; [by rewrite Hm'|].
  split; [by rewrite Hh'|].
  intros Hno. specialize (Hid Hno). subst o2. by apply Hid'.
Qed.

Lemma notified_object cont n w l :
  match objects w !! l with
  | Some o => ∃ o', objects (notified cont n w) !! l = Some o' ∧
                same_but_trace o o'
  | None => objects (notified cont n w) !! l = None
  end.
Proof.
  assert (match objects w !! l with
          | Some o => ∃ o', objects w !! l = Some o' ∧ same_but_trace o o'
          | None => objects w !! l = None
          end) as Hsame.
  { destruct (objects w !! l) as [o|] eqn:Ho; [|done].
    exists o. split; [done|apply same_but_trace_refl]. }
  destruct n as [value|[x|l0]];
    [by rewrite notified_objects_returning
    |by rewrite notified_objects_throwing|].
  rewrite notified_objects_throwing. simpl.
  destruct (objects w !! l0) as [o0|] eqn:Ho0; [|done].
  destruct (instanceof_Error o0) eqn:HE; [|done].
  destruct (decide (l0 = l)) as [->|Hne].
  - rewrite Ho0, lookup_alter_eq, Ho0. simpl. eexists. split; [done|].
    split; [done|]. split; [done|]. split; [|simpl; congruence].
    simpl. apply header_rewritten_stack.
  - by rewrite lookup_alter_ne.
Qed.

Lemma notify_all_object n queue w l :
  match objects w !! l with
  | Some o =>
      ∃ o', objects (foldl (λ w' cont, notified cont n w') w queue) !! l
            = Some o' ∧ same_but_trace o o'
  | None => objects (foldl (λ w' cont, notified cont n w') w queue) !! l = None
  end.
Proof.
  revert w. induction queue as [|c q IH]; intros w; simpl.
  - destruct (objects w !! l) as [o|] eqn:Ho; [|done].
    exists o. split; [done|apply same_but_trace_refl].
  - pose proof (notified_object c n w l) as Hone.
    specialize (IH (notified c n w)).
    destruct (objects w !! l) as [o|].
    + destruct Hone as (o1 & Ho1 & H1). rewrite Ho1 in IH.
      destruct IH as (o2 & Ho2 & H2). exists o2.
      split; [done|by eapply same_but_trace_trans].
    + by rewrite Hone in IH.
Qed.

(** X7. When the queue is notified of an [Error], only the last queued
    continuation leaves its mark: afterwards the trace of the error is its
    first line followed by the creation context of the continuation at the
    end of the queue, whatever the others had kept. *)
Theorem last_follower_trace_survives w l o queue cont k :
  objects w !! l = Some o → instanceof_Error o = true →
  continuationQueue w = queue ++ [cont] →
  continuations w !! cont = Some k →
  ∃ w', RequestCoalescer_resumeByThrowing (Ref l) w = (Normal (), w') ∧
    objects w' !! l
    = Some (Object true (message o)
              (Some (rewritten_stack (stack o) (initialCallStack k)))).
Proof.
  intros Ho HE Hq Hk. eexists. split; [apply coalescer_resumeByThrowing_run|].
  cbn [objects with_continuationQueue]. rewrite Hq, foldl_snoc.
  set (w1 := foldl (λ w' c, notified c (Throwing (Ref l)) w') w queue).
  pose proof (notify_all_object (Throwing (Ref l)) queue w l) as Hobj.
  rewrite Ho in Hobj. destruct Hobj as (o1 & Ho1 & HE1 & Hm1 & Hh1 & _).
  fold w1 in Ho1.
  pose proof (settle_all_initialCallStack (Throwing (Ref l)) queue _ _ _ Hk)
    as Hics.
  rewrite <- notify_all_continuations in Hics. fold w1 in Hics.
  rewrite notified_objects_throwing. simpl.
  rewrite Ho1, HE1, HE, lookup_alter_eq, Ho1. simpl.
  rewrite HE1, HE, Hm1.
  destruct (continuations w1 !! cont) as [k1|]; [|done].
  simpl in *. injection Hics as ->.
  by rewrite !rewritten_stack_header, Hh1.
Qed.

Lemma step_object s ev s' l :
  step s ev = Some s' →
  match objects (world s) !! l with
  | Some o => ∃ o', objects (world s') !! l = Some o' ∧ same_but_trace o o'
  | None => objects (world s') !! l = None
  end.
Proof.
  intros Hstep.
  assert (objects (world s') = objects (world s) →
          match objects (world s) !! l with
          | Some o => ∃ o', objects (world s') !! l = Some o' ∧
                        same_but_trace o o'
          | None => objects (world s') !! l = None
          end) as Hsame.
  { intros ->. destruct (objects (world s) !! l) as [o|] eqn:Ho; [|done].
    exists o. split; [done|apply same_but_trace_refl]. }
  destruct (completes ev) as [[i o]|] eqn:Hev.
  - destruct (step_completes s ev i o s' Hev Hstep) as [_ ->].
    apply (notify_all_object (notifies o) _ (world s) l).
  - destruct ev as [here|j [u|e]|j [v|e]]; try done.
    + apply Hsame. destruct (lock (world s)) eqn:Hl.
      * rewrite step_call_locked in Hstep by done. by injection Hstep as <-.
      * rewrite step_call_free in Hstep by done. by injection Hstep as <-.
    + apply Hsame. by apply step_fetch_ok in Hstep as [_ ->].
Qed.

(** X8. Whatever the program does, it neither makes nor drops an object,
    and of an object it changes at most the trace past its first line: the
    class, the message and the first line of the trace stay, and an object
    that is no [Error] stays as it is. *)
Theorem objects_keep_message_and_header s evs s' l :
  steps s evs = Some s' →
  match objects (world s) !! l with
  | Some o => ∃ o', objects (world s') !! l = Some o' ∧ same_but_trace o o'
  | None => objects (world s') !! l = None
  end.
Proof.
  revert s. induction evs as [|ev evs IH]; intros s; simpl.
  - intros [= <-]. destruct (objects (world s) !! l) as [o|] eqn:Ho; [|done].
    exists o. split; [done|apply same_but_trace_refl].
  - destruct (step s ev) as [s1|] eqn:Hstep; [|done]. simpl. intros Hrun.
    pose proof (step_object s ev s1 l Hstep) as H1.
    specialize (IH s1 Hrun).
    destruct (objects (world s) !! l) as [o|].
    + destruct H1 as (o1 & Ho1 & H1). rewrite Ho1 in IH.
      destruct IH as (o2 & Ho2 & H2). exists o2.
      split; [done|by eapply same_but_trace_trans].
    + by rewrite H1 in IH.
Qed.

(** X9. A leader that no call was queued behind only releases the lock when
    it settles: there is nothing to notify, so no continuation, no object
    (the error it throws keeps its trace) and no other part of the heap
    changes. *)
Theorem lone_leader_only_releases_lock s ev i o s' :
  completes ev = Some (i, o) → step s ev = Some s' →
  continuationQueue (world s) = [] →
  world s' = with_lock false (world s).
Proof.
  intros Hev Hstep Hq.
  destruct (step_completes s ev i o s' Hev Hstep) as [_ ->].
  cbn [world]. unfold settled_world. rewrite Hq. simpl.
  destruct (world s) as [l q cs h f r]. simpl in *. by subst q.
Qed.

Lemma notify_all_objects_not_Error e queue w :
  is_Error (objects w) e = false →
  objects (foldl (λ w' cont, notified cont (Throwing e) w') w queue)
  = objects w.
Proof.
  revert w. induction queue as [|c q IH]; intros w HE; [done|].
  assert (objects (notified c (Throwing e) w) = objects w) as Hsame.
  { rewrite notified_objects_throwing, HE. by destruct e. }
  cbn [foldl]. rewrite IH; [done|by rewrite Hsame].
Qed.

(** X10. The objects change in one case only: the operation failed with an
    instance of [Error] while calls were queued.  A call, a fetch that
    succeeds, a payload, a failure with anything that is no [Error], and a
    failure without followers all leave every object as it is. *)
Theorem objects_change_only_on_Error_with_followers s ev s' :
  step s ev = Some s' → objects (world s') ≠ objects (world s) →
  ∃ i l, completes ev = Some (i, Rejected (Ref l)) ∧
    is_Error (objects (world s)) (Ref l) = true ∧
    continuationQueue (world s) ≠ [].
Proof.
  intros Hstep Hdiff.
  destruct (completes ev) as [[i o]|] eqn:Hev.
  - destruct (step_completes s ev i o s' Hev Hstep) as [_ ->].
    cbn [world] in Hdiff. unfold settled_world in Hdiff. simpl in Hdiff.
    destruct o as [v|e].
    + destruct Hdiff. apply notify_all_objects_returning.
    + destruct (is_Error (objects (world s)) e) eqn:HE.
      * destruct e as [x|l]; [done|]. exists i, l.
        split; [done|]. split; [done|]. intros Hq. destruct Hdiff.
        by rewrite Hq.
      * destruct Hdiff. by apply notify_all_objects_not_Error.
  - destruct Hdiff. destruct ev as [here|j [u|e]|j [v|e]]; try done.
    + destruct (lock (world s)) eqn:Hl.
      * rewrite step_call_locked in Hstep by done. by injection Hstep as <-.
      * rewrite step_call_free in Hstep by done. by injection Hstep as <-.
    + by apply step_fetch_ok in Hstep as [_ ->].
Qed.

(** X12. The lock changes hands at two places only: a call that finds it
    free takes it, and the turn in which the operation completes releases
    it.  A queued call and a fetch that succeeds leave it held. *)
Theorem lock_changes_only_at_lead_and_completion s ev s' :
  step s ev = Some s' → lock (world s') ≠ lock (world s) →
  (lock (world s) = false ∧ ∃ here, ev = Call here) ∨
  (lock (world s) = true ∧ ∃ i o, completes ev = Some (i, o)).
Proof.
  intros Hstep Hdiff.
  destruct (completes ev) as [[i o]|] eqn:Hev.
  - right. destruct (lock (world s)) eqn:Hl; [eauto|].
    destruct (step_completes s ev i o s' Hev Hstep) as [_ ->].
    by destruct Hdiff.
  - destruct ev as [here|j [u|e]|j [v|e]]; try done.
    + left. destruct (lock (world s)) eqn:Hl; [|eauto].
      rewrite step_call_locked in Hstep by done. injection Hstep as <-.
      by destruct Hdiff.
    + apply step_fetch_ok in Hstep as [_ ->]. by destruct Hdiff.
Qed.

Lemma step_initialCallStack s ev s' cont k :
  step s ev = Some s' → continuations (world s) !! cont = Some k →
  initialCallStack <$> continuations (world s') !! cont
  = Some (initialCallStack k).
Proof.
  intros Hstep Hk.
  destruct (completes ev) as [[i o]|] eqn:Hev.
  - destruct (step_completes s ev i o s' Hev Hstep) as [_ ->].
    cbn [world]. rewrite settled_world_continuations.
    by apply settle_all_initialCallStack.
  - destruct ev as [here|j [u|e]|j [v|e]]; try done.
    + destruct (lock (world s)) eqn:Hl.
      * rewrite step_call_locked in Hstep by done. injection Hstep as <-.
        unfold enqueued. simpl.
        by rewrite (lookup_app_l_Some _ _ _ _ Hk).
      * rewrite step_call_free in Hstep by done. injection Hstep as <-.
        simpl. by rewrite Hk.
    + apply step_fetch_ok in Hstep as [_ ->]. simpl. by rewrite Hk.
Qed.

Lemma steps_initialCallStack evs s s' cont k :
  steps s evs = Some s' → continuations (world s) !! cont = Some k →
  initialCallStack <$> continuations (world s') !! cont
  = Some (initialCallStack k).
Proof.
  revert s k. induction evs as [|ev evs IH]; intros s k; simpl.
  - intros [= <-] Hk. by rewrite Hk.
  - destruct (step s ev) as [s1|] eqn:Hstep; [|done]. simpl.
    intros Hrun Hk.
    pose proof (step_initialCallStack s ev s1 cont k Hstep Hk) as H1.
    apply fmap_Some in H1 as (k1 & Hk1 & ->).
    by apply (IH s1 k1).
Qed.

(** X13. The continuation made for a queued call keeps the creation context
    of that call for good: whatever happens afterwards, also once an error
    thrown into it carries the context of another call, its
    [initialCallStack] is the stack of its own constructor call without the
    first two lines. *)
Theorem follower_keeps_its_creation_context s here s1 evs s' :
  lock (world s) = true → step s (Call here) = Some s1 →
  steps s1 evs = Some s' →
  calls s1 !! length (calls s)
  = Some (Returned (Queued (length (continuations (world s))))) ∧
  initialCallStack <$> continuations (world s')
                         !! length (continuations (world s))
  = Some (captured_stack here).
Proof.
  intros Hl Hstep Hrun.
  rewrite step_call_locked in Hstep by done. injection Hstep as <-.
  split; [by apply list_lookup_middle|].
  rewrite (steps_initialCallStack evs _ s' _
             (MkContinuation Pending (captured_stack here)) Hrun); [done|].
  unfold enqueued. simpl. by apply list_lookup_middle.
Qed.

(** X14. In the whole run no continuation is resumed twice, and one that
    has been resumed is out of the queue, so it will not be resumed again. *)
Theorem no_continuation_resumed_twice s :
  reachable s →
  NoDup (resumptions (world s)).*1 ∧
  ∀ cont, cont ∈ (resumptions (world s)).*1 →
    cont ∉ continuationQueue (world s).
Proof.
  intros Hr. pose proof (reachable_Inv s Hr) as HI.
  split; [apply HI|]. intros c Hc. by apply (inv_resumed s HI).
Qed.

(** X15. The two public resume methods of the coalescer neither take nor
    release the lock and never invoke the operation; each leaves the queue
    empty, so that a resume that follows another finds nothing to notify and
    changes nothing: the continuations keep what the first one gave them and
    an error given to the second keeps its trace. *)
Theorem coalescer_resume_drains_once w result e :
  (∃ w1, RequestCoalescer_resumeByReturning result w = (Normal (), w1) ∧
     lock w1 = lock w ∧ fetches w1 = fetches w ∧
     continuationQueue w1 = [] ∧
     RequestCoalescer_resumeByThrowing e w1 = (Normal (), w1)) ∧
  (∃ w1, RequestCoalescer_resumeByThrowing e w = (Normal (), w1) ∧
     lock w1 = lock w ∧ fetches w1 = fetches w ∧
     continuationQueue w1 = [] ∧
     RequestCoalescer_resumeByReturning result w1 = (Normal (), w1)).
Proof.
  split; eexists.
  - split; [apply coalescer_resumeByReturning_run|].
    cbn [lock fetches continuationQueue with_continuationQueue].
    rewrite notify_all_lock, notify_all_fetches.
    split; [done|]. split; [done|]. split; [done|].
    by rewrite coalescer_resumeByThrowing_run.
  - split; [apply coalescer_resumeByThrowing_run|].
    cbn [lock fetches continuationQueue with_continuationQueue].
    rewrite notify_all_lock, notify_all_fetches.
    split; [done|]. split; [done|]. split; [done|].
    by rewrite coalescer_resumeByReturning_run.
Qed.

End More.

(** X11. The creation context a continuation keeps is the call stack of its
    constructor without the first two lines (the header and the frame of the
    constructor itself): the lines of the callers, unchanged and in order.
    A stack of two lines or fewer leaves the empty text. *)
Theorem captured_stack_keeps_caller_lines (l : list string) :
  l ≠ [] → Forall one_line l →
  captured_stack (Some (Js.lines l)) = Some (Js.lines (drop 2 l)).
Proof.
  intros Hne Hl. unfold captured_stack. simpl.
  by rewrite split_lines.
Qed.

(** ** The further properties on the run of the demo *)

Lemma failed_state_run :
  steps (initial Demo.heap)
    (Call None :: Demo.arrivals ++ [JsonSettled 0 (inr (Ref 1))])
  = Some failed_state.
Proof. vm_compute. reflexivity. Defined.

Lemma failed_state_reachable : reachable failed_state.
Proof.
  exists Demo.heap,
    (Call None :: Demo.arrivals ++ [JsonSettled 0 (inr (Ref 1))]).
  exact failed_state_run.
Defined.

Lemma in_flight_state_fails :
  step Demo.in_flight_state (JsonSettled 0 (inr (Ref 1))) = Some failed_state.
Proof. vm_compute. reflexivity. Defined.

Lemma lock_held_iff_leader_in_flight_witness :
  ∃ i p, calls Demo.in_flight_state !! i = Some (Suspended p).
Proof.
  exact (proj1 (proj1 (lock_held_iff_leader_in_flight Demo.in_flight_state
                         Demo_busy_reachable)) eq_refl).
Defined.

Lemma every_call_leads_or_follows_witness :
  fetches (world Demo.in_flight_state)
  + length (followers Demo.in_flight_state) = 3.
Proof.
  exact (every_call_leads_or_follows Demo.in_flight_state
           Demo_busy_reachable).
Defined.


Lemma no_caller_left_waiting_witness :
  lock (world failed_state) = false ∧ is_Some (call_outcome failed_state 1).
Proof.
  split; [reflexivity|].
  apply (proj2 (no_caller_left_waiting failed_state failed_state_reachable)
           eq_refl 1).
  vm_compute. lia.
Defined.

Lemma outcomes_are_final_witness :
  ∃ s', steps failed_state
          [Call None; FetchSettled 3 (inl ()); JsonSettled 3 (inl 9)]
        = Some s' ∧
    call_outcome s' 1 = Some (Rejected (Ref 1)) ∧
    call_outcome s' 3 = Some (Fulfilled 9).
Proof.
  eexists. split; [vm_compute; reflexivity|]. split; [|reflexivity].
  apply (outcomes_are_final failed_state
           [Call None; FetchSettled 3 (inl ()); JsonSettled 3 (inl 9)] _ 1);
    reflexivity.
Defined.

Lemma settled_continuation_ignores_resumption_witness :
  ∃ w2, Continuation_resumeByThrowing 0 (Ref 1) resumed_world
        = (Normal (), w2) ∧
    state <$> continuations w2 !! 0 = Some (Settled (Fulfilled 7)) ∧
    stack <$> objects w2 !! 1%positive
    = Some (Some (Js.lines
        ["Error: boom";
         "    at RequestCoalescer.coalesce (request_coalesce.ts:85:18)";
         "    at thread 2 (request_coalesce.ts:132:36)"])).
Proof.
  destruct (proj2 (settled_continuation_ignores_resumption resumed_world 0
                     (MkContinuation (Settled (Fulfilled 7))
                        (captured_stack Demo.stack_of_thread_2))
                     (Value 8) (Ref 1) eq_refl
                     (λ H, eq_ind (Settled (Fulfilled 7))
                             (λ st, match st with
                                    | Settled _ => True
                                    | _ => False
                                    end) I Pending H)))
    as (w2 & Hrun & Hsame & Hobj).
  exists w2. split; [exact Hrun|]. split.
  - rewrite Hsame. reflexivity.
  - rewrite (Hobj 1%positive Demo.boom eq_refl eq_refl eq_refl).
    vm_compute. reflexivity.
Defined.

Lemma last_follower_trace_survives_witness :
  ∃ w', RequestCoalescer_resumeByThrowing (Ref 1) (world Demo.in_flight_state)
        = (Normal (), w') ∧
    stack <$> objects w' !! 1%positive
    = Some (Some (Js.lines
        ["Error: boom";
         "    at RequestCoalescer.coalesce (request_coalesce.ts:85:18)";
         "    at thread 3 (request_coalesce.ts:138:36)"])).
Proof.
  destruct (last_follower_trace_survives (world Demo.in_flight_state)
              1%positive Demo.boom [0] 1
              (MkContinuation Pending (captured_stack Demo.stack_of_thread_3))
              eq_refl eq_refl eq_refl eq_refl)
    as (w' & Hrun & Hobj).
  exists w'. split; [exact Hrun|]. rewrite Hobj. vm_compute. reflexivity.
Defined.

Lemma objects_keep_message_and_header_witness :
  ∃ o', objects (world failed_state) !! 1%positive = Some o' ∧
    message o' = "boom" ∧ header (stack o') = "Error: boom".
Proof.
  destruct (objects_keep_message_and_header Demo.in_flight_state
              [JsonSettled 0 (inr (Ref 1))] failed_state 1%positive eq_refl)
    as (o' & Ho' & _ & Hm & Hh & _).
  exists o'. split; [exact Ho'|]. split; [exact Hm|exact Hh].
Defined.

Lemma lone_leader_only_releases_lock_witness :
  ∃ s', step lone_leader_state (FetchSettled 0 (inr (Ref 1))) = Some s' ∧
    objects (world s') = Demo.heap ∧ lock (world s') = false ∧
    call_outcome s' 0 = Some (Rejected (Ref 1)).
Proof.
  eexists. split; [vm_compute; reflexivity|].
  pose proof (lone_leader_only_releases_lock lone_leader_state
                (FetchSettled 0 (inr (Ref 1))) 0 (Rejected (Ref 1)) _
                eq_refl eq_refl eq_refl) as H.
  split; [exact (f_equal objects H)|].
  split; [exact (f_equal lock H)|reflexivity].
Defined.

Lemma failed_state_objects_changed :
  objects (world failed_state) ≠ objects (world Demo.in_flight_state).
Proof.
  intros H. apply (f_equal (λ m, stack <$> m !! 1%positive)) in H.
  vm_compute in H. discriminate H.
Defined.

Lemma objects_change_only_on_Error_with_followers_witness :
  ∃ i l, completes (JsonSettled (T:=nat) 0 (inr (Ref 1)))
         = Some (i, Rejected (Ref l)) ∧
    is_Error (objects (world Demo.in_flight_state)) (Ref l) = true ∧
    continuationQueue (world Demo.in_flight_state) ≠ [].
Proof.
  exact (objects_change_only_on_Error_with_followers Demo.in_flight_state
           (JsonSettled 0 (inr (Ref 1))) failed_state
           in_flight_state_fails failed_state_objects_changed).
Defined.

Lemma lock_changes_only_at_lead_and_completion_witness :
  (lock (world Demo.in_flight_state) = false ∧
   ∃ here, JsonSettled (T:=nat) 0 (inr (Ref 1)) = Call here) ∨
  (lock (world Demo.in_flight_state) = true ∧
   ∃ i o, completes (JsonSettled (T:=nat) 0 (inr (Ref 1))) = Some (i, o)).
Proof.
  apply (lock_changes_only_at_lead_and_completion Demo.in_flight_state
           (JsonSettled 0 (inr (Ref 1))) failed_state in_flight_state_fails).
  vm_compute. discriminate.
Defined.

Lemma captured_stack_keeps_caller_lines_witness :
  captured_stack Demo.stack_of_thread_2
  = Some (Js.lines
      ["    at RequestCoalescer.coalesce (request_coalesce.ts:85:18)";
       "    at thread 2 (request_coalesce.ts:132:36)"]).
Proof.
  apply (captured_stack_keeps_caller_lines
           ["Error";
            "    at new Continuation (request_coalesce.ts:52:29)";
            "    at RequestCoalescer.coalesce (request_coalesce.ts:85:18)";
            "    at thread 2 (request_coalesce.ts:132:36)"]).
  - discriminate.
  - repeat constructor.
Defined.

Lemma follower_keeps_its_creation_context_witness :
  ∃ s1 s', step Demo.in_flight_state (Call stack_of_thread_4) = Some s1 ∧
    steps s1 [JsonSettled 0 (inr (Ref 1))] = Some s' ∧
    calls s1 !! 3 = Some (Returned (Queued 2)) ∧
    initialCallStack <$> continuations (world s') !! 2
    = Some (Some (Js.lines
        ["    at RequestCoalescer.coalesce (request_coalesce.ts:85:18)";
         "    at thread 4 (request_coalesce.ts:144:36)"])).
Proof.
  eexists. eexists.
  split; [vm_compute; reflexivity|]. split; [vm_compute; reflexivity|].
  exact (follower_keeps_its_creation_context Demo.in_flight_state
           stack_of_thread_4 _ [JsonSettled 0 (inr (Ref 1))] _
           eq_refl eq_refl eq_refl).
Defined.

Lemma no_continuation_resumed_twice_witness :
  NoDup (resumptions (world failed_state)).*1 ∧
  (resumptions (world failed_state)).*1 = [0; 1].
Proof.
  split; [|reflexivity].
  exact (proj1 (no_continuation_resumed_twice failed_state
                  failed_state_reachable)).
Defined.
